(** * Timetable candidate generator of [Class22.py]

    A shallow embedding of [generate_schedules] and of the two ranking
    callbacks ([sort_key], [sort_key_generated]) of the course scheduling
    assistant, together with the properties its specification states.

    Conventions of the embedding:
    - Python [int] is [Z]; [len] and loop counters that start at [0] and only
      grow by one are [nat];
    - a Python [dict] is an insertion-ordered association list ([dict]),
      because the iteration order of [grouped_courses] fixes the order of the
      Cartesian product and the order of [time_slot_map] fixes the order of
      the [conflicts] list;
    - the Python [set] [must_select_names] is a [gset string]: its iteration
      order is not fixed by the language, and nothing proved below depends
      on it;
    - [sorted] and [list.sort] are stable sorts on a key; they are modelled by
      a stable insertion sort, and [sorted_by_stable] shows that this is the
      only possible result of a stable sort;
    - [st.error] and [st.warning] append to a message log that is returned
      next to the result. *)

From stdpp Require Import base list strings gmap sorting.
From Stdlib Require Import ZArith Lia.

Local Open Scope Z_scope.
#[local] Set Warnings "-clear-no-such-hyp".

(** ** Python's [<] on the key types that occur *)

Class PyLt (K : Type) := py_lt : K → K → bool.

Class PyLtLaws (K : Type) `{PyLt K} := {
  py_lt_irrefl (a : K) : py_lt a a = false;
  py_lt_trans (a b c : K) : py_lt a b = true → py_lt b c = true → py_lt a c = true;
  py_lt_total (a b : K) : py_lt a b = false → py_lt b a = false → a = b
}.

Global Instance Z_py_lt : PyLt Z := Z.ltb.

(** [False < True], nothing else. *)
Global Instance bool_py_lt : PyLt bool := λ a b, negb a && b.

(** Tuples compare at the first component that differs. *)
Global Instance pair_py_lt {A B} `{EqDecision A, PyLt A, PyLt B} : PyLt (A * B) :=
  λ a b, if bool_decide (a.1 = b.1) then py_lt a.2 b.2 else py_lt a.1 b.1.

(** [py_le a b] is [not (b < a)], the test a stable sort makes. *)
Definition py_le {K} `{PyLt K} (a b : K) : Prop := py_lt b a = false.

(** ** [sorted(l, key=key)] and [l.sort(key=key)] *)

Section sorting.
Context {A K : Type} `{PyLt K} (key : A → K).

Fixpoint insert_by (x : A) (l : list A) : list A :=
  match l with
  | [] => [x]
  | y :: l' => if py_lt (key y) (key x) then y :: insert_by x l' else x :: l
  end.

Definition sorted_by (l : list A) : list A := foldr insert_by [] l.

(** The order a sort on [key] establishes. *)
Definition key_le (x y : A) : Prop := py_le (key x) (key y).
End sorting.

(** ** Insertion-ordered dictionaries *)

Abbreviation dict K V := (list (K * V)).

Section dict.
Context {K V : Type} `{EqDecision K}.

Fixpoint dict_get (k : K) (d : dict K V) : option V :=
  match d with
  | [] => None
  | (k', v) :: d' => if decide (k = k') then Some v else dict_get k d'
  end.

Definition dict_keys (d : dict K V) : list K := d.*1.

(** [d[k] = f(d[k])] for every key, in place: the loop
    [for name, group in d.items(): d[name] = f(group)]. *)
Definition dict_map_values {W} (f : V → W) (d : dict K V) : dict K W :=
  (λ kv, (kv.1, f kv.2)) <$> d.
End dict.

Section dict_append.
Context {K V : Type} `{EqDecision K}.

(** [if k not in d: d[k] = []] followed by [d[k].append(x)]; also
    [d.setdefault(k, []).append(x)]. A new key goes to the end. *)
Fixpoint dict_append (k : K) (x : V) (d : dict K (list V)) : dict K (list V) :=
  match d with
  | [] => [(k, [x])]
  | (k', l) :: d' =>
      if decide (k = k') then (k', l ++ [x]) :: d' else (k', l) :: dict_append k x d'
  end.

(** [d[k]] for a key that is known to be there. *)
Definition dict_at (k : K) (d : dict K (list V)) : list V :=
  default [] (dict_get k d).

(** The dictionary after [for k, x in L: d.setdefault(k, []).append(x)],
    started from [d]. *)
Definition dict_extend (d : dict K (list V)) (L : list (K * V)) : dict K (list V) :=
  foldl (λ d kv, dict_append kv.1 kv.2 d) d L.

(** The distinct elements of a list, in the order of their first
    occurrence. *)
Fixpoint first_seen (l : list K) : list K :=
  match l with
  | [] => []
  | x :: l => x :: filter (λ y, y ≠ x) (first_seen l)
  end.

(** The values that [L] pairs with [k], in the order of [L]. *)
Definition values_of (k : K) (L : list (K * V)) : list V :=
  (filter (λ kv, kv.1 = k) L).*2.
End dict_append.

(** ** [itertools.product] *)

(** The documented reference implementation:
    [result = [[]]; for pool in pools: result = [x+[y] for x in result for y in pool]]. *)
Definition product {A} (pools : list (list A)) : list (list A) :=
  foldl (λ result pool, x ← result; (λ y, x ++ [y]) <$> pool) [[]] pools.

(** The number of tuples of the product. *)
Definition product_size {A} (pools : list (list A)) : nat :=
  foldr (λ pool n, (length pool * n)%nat) 1%nat pools.

(** The tuple at position [i]: the digits of [i] in the mixed radix given by
    the sizes of the pools, the first pool giving the most significant digit
    and the last pool the least significant one. *)
Fixpoint tuple_at {A} (pools : list (list A)) (i : nat) : option (list A) :=
  match pools with
  | [] => Some []
  | pool :: pools =>
      x ← pool !! (i / product_size pools)%nat;
      t ← tuple_at pools (i mod product_size pools)%nat;
      Some (x :: t)
  end.

(** ** The data model *)

Record Course := {
  name : string;
  type : string;
  class_id : string;
  credits : Z;
  priority : Z;
  time_slots : list (string * Z);
  must_select : bool;
  temporarily_exclude : bool;
  teacher : string;
  notes : string
}.

Global Instance Course_eq_dec : EqDecision Course.
Proof. solve_decision. Defined.

Definition REQUIRED : string := "必修".
Definition ELECTIVE : string := "選修".

(** The tuple [(combo, total_priority, total_credits, req_credits,
    ele_credits, conflicts, conflict_count)]; [conflicts] is [None] in Python
    when there is no conflict. *)
Record Schedule := {
  combo : list Course;
  total_priority : Z;
  total_credits : Z;
  req_credits : Z;
  ele_credits : Z;
  conflicts : option (list (string * Z * list Course));
  conflict_count : Z
}.

Global Instance Schedule_eq_dec : EqDecision Schedule.
Proof. solve_decision. Defined.

(** What the function reports through [st.error] and [st.warning]. *)
Inductive Message :=
  | MissingMustSelect (course_name : string)
  | BudgetReached (max_schedules : Z).

Definition sum_Z (l : list Z) : Z := foldr Z.add 0 l.

(** ** [generate_schedules] *)

Definition must_select_names (required_courses : list Course) : gset string :=
  list_to_set (name <$> filter (λ c, must_select c = true) required_courses).

Definition available_courses (courses : list Course) : list Course :=
  filter (λ c, temporarily_exclude c = false) courses.

(** [any(c.name == name for c in l)] *)
Definition any_named (n : string) (l : list Course) : bool :=
  existsb (λ c, bool_decide (name c = n)) l.

(** The loop of lines 71-74. *)
Definition group_courses (available : list Course) : dict string (list Course) :=
  foldl (λ grouped c, dict_append (name c) c grouped) [] available.

Definition group_key (c : Course) : bool * Z := (negb (must_select c), - priority c).

(** Lines 71-78: grouping, then each group sorted in place. *)
Definition grouped_courses (available : list Course) : dict string (list Course) :=
  dict_map_values (sorted_by group_key) (group_courses available).

Definition course_names (available : list Course) : list string :=
  dict_keys (grouped_courses available).

Definition course_options (available : list Course) : list (list Course) :=
  (λ n, dict_at n (grouped_courses available)) <$> course_names available.

Definition has_all_must_select (must : gset string) (combo : list Course) : bool :=
  forallb (λ n, any_named n combo) (elements must).

(** Lines 98-104. *)
Definition time_slot_map (combo : list Course) : dict (string * Z) (list Course) :=
  foldl (λ m c, foldl (λ m ts, dict_append ts c m) m (time_slots c)) [] combo.

(** Lines 106-114: the pair [(conflicts, conflict_count)] after the loop. *)
Definition scan_conflicts (m : dict (string * Z) (list Course))
    : list (string * Z * list Course) * Z :=
  foldl (λ acc kv,
           if bool_decide (1 < length kv.2)%nat
           then (acc.1 ++ [(kv.1.1, kv.1.2, kv.2)], acc.2 + (Z.of_nat (length kv.2) - 1))
           else acc)
        ([], 0) m.

(** Lines 97-128: one tuple of the product turned into a result tuple. *)
Definition evaluate (combo : list Course) : Schedule :=
  let '(conflicts, conflict_count) := scan_conflicts (time_slot_map combo) in
  {| combo := combo;
     total_priority := sum_Z (priority <$> combo);
     total_credits := sum_Z (credits <$> combo);
     req_credits := sum_Z (credits <$> filter (λ c, type c = REQUIRED) combo);
     ele_credits := sum_Z (credits <$> filter (λ c, type c = ELECTIVE) combo);
     conflicts := if bool_decide (conflict_count = 0) then None else Some conflicts;
     conflict_count := conflict_count |}.

(** Lines 85-129: the loop over the product, with the dictionary
    [schedules] and the counter [count_generated] as state. It stops at the
    first tuple that finds the counter at the cap, without looking at the
    rest. *)
Fixpoint enumerate (must : gset string) (max_schedules : Z)
    (all_combinations : list (list Course))
    (schedules : dict Z (list Schedule)) (count_generated : nat)
    : dict Z (list Schedule) * list Message :=
  match all_combinations with
  | [] => (schedules, [])
  | combo :: rest =>
      if bool_decide (max_schedules ≤ Z.of_nat count_generated)
      then (schedules, [BudgetReached max_schedules])
      else if negb (has_all_must_select must combo)
      then enumerate must max_schedules rest schedules count_generated
      else
        let s := evaluate combo in
        enumerate must max_schedules rest
          (dict_append (conflict_count s) s schedules) (S count_generated)
  end.

Definition generated_key (x : Schedule) : Z * Z := (- total_priority x, - total_credits x).

(** Lines 131-141. *)
Definition flatten_schedules (schedules : dict Z (list Schedule)) : list Schedule :=
  let sorted_conflict_counts := sorted_by id (dict_keys schedules) in
  let schedules := dict_map_values (sorted_by generated_key) schedules in
  ccount ← sorted_conflict_counts; dict_at ccount schedules.

(** The name the loop of lines 65-68 reports, if any. *)
Definition missing_must_select (must : gset string) (available : list Course)
    : option string :=
  find (λ n, negb (any_named n available)) (elements must).

Definition generate_schedules (courses required_courses elective_courses : list Course)
    (max_schedules : Z) : list Schedule * list Message :=
  let must := must_select_names required_courses in
  let available := available_courses courses in
  match missing_must_select must available with
  | Some n => ([], [MissingMustSelect n])
  | None =>
      let '(schedules, log) :=
        enumerate must max_schedules (product (course_options available)) [] 0 in
      (flatten_schedules schedules, log)
  end.

(** ** The caller and the ranking callbacks *)

(** Line 465 and line 466. *)
Definition required_of (courses : list Course) : list Course :=
  filter (λ c, type c = REQUIRED) courses.
Definition elective_of (courses : list Course) : list Course :=
  filter (λ c, type c = ELECTIVE) courses.

(** Line 472, with the default [max_schedules=1000]. *)
Definition generate (courses : list Course) : list Schedule * list Message :=
  generate_schedules courses (required_of courses) (elective_of courses) 1000.

Definition CONFLICTS_FIRST : string := "先衝堂數量少到多，接著優先順序總和多到少".
Definition PRIORITY_FIRST : string := "先優先順序總和多到少，接著衝堂數量少到多".

(** [sort_key] (line 439) and [sort_key_generated] (line 480) have the same
    body. *)
Definition sort_key (sort_option : string) (schedule : Schedule) : Z * Z :=
  if bool_decide (sort_option = CONFLICTS_FIRST)
  then (conflict_count schedule, - total_priority schedule)
  else (- total_priority schedule, conflict_count schedule).

(** [l.sort(key=sort_key)] *)
Definition rank (sort_option : string) (l : list Schedule) : list Schedule :=
  sorted_by (sort_key sort_option) l.

(** ** Notions of the specification *)

(** The check of lines 65-68 passes: every must-select name has a section
    that is not excluded. *)
Definition must_select_available (must : gset string) (available : list Course) : Prop :=
  ∀ n, n ∈ must → ∃ c, c ∈ available ∧ name c = n.

(** The pairs [(slot, section)] in the order in which lines 99-104 visit
    them. *)
Definition slot_entries (combo : list Course) : list (string * Z * Course) :=
  c ← combo; (λ ts, (ts, c)) <$> time_slots c.

(** The slots a tuple occupies, each once, in the order in which they are
    first met: the keys of the time-slot map. *)
Definition slot_keys (combo : list Course) : list (string * Z) :=
  first_seen (combo ≫= time_slots).

(** The number of occupants of slot [k]: the number of times the sections of
    [combo] list [k] among their time slots. *)
Definition occupants (k : string * Z) (combo : list Course) : nat :=
  sum_list_with (λ c, length (filter (λ ts, ts = k) (time_slots c))) combo.

(** The sections of [combo] that meet in slot [k], each once. *)
Definition occupying_sections (k : string * Z) (combo : list Course) : list Course :=
  filter (λ c, k ∈ time_slots c) combo.

(** The entries of a time-slot map with two occupants or more, and the sum
    of their surplus occupants. *)
Definition listed (m : dict (string * Z) (list Course)) : list (string * Z * list Course) :=
  (λ kv, (kv.1.1, kv.1.2, kv.2)) <$> filter (λ kv, 1 < length kv.2)%nat m.
Definition counted (m : dict (string * Z) (list Course)) : Z :=
  sum_Z ((λ kv, Z.max 0 (Z.of_nat (length kv.2) - 1)) <$> m).

(** The conflicts a result tuple shows; Python's [None] shows none. *)
Definition conflict_list (s : Schedule) : list (string * Z * list Course) :=
  default [] (conflicts s).

(** The three keys of a generated list: conflict count ascending, then
    total priority descending, then total credits descending. *)
Definition schedule_key (s : Schedule) : Z * (Z * Z) :=
  (conflict_count s, generated_key s).

Definition generated_order (a b : Schedule) : Prop :=
  conflict_count a < conflict_count b
  ∨ (conflict_count a = conflict_count b ∧ total_priority b < total_priority a)
  ∨ (conflict_count a = conflict_count b ∧ total_priority a = total_priority b
     ∧ total_credits b ≤ total_credits a).

(** ** Example pools *)

Definition mk (n ty cid : string) (cr pr : Z) (ts : list (string * Z)) (ms ex : bool) : Course :=
  {| name := n; type := ty; class_id := cid; credits := cr; priority := pr;
     time_slots := ts; must_select := ms; temporarily_exclude := ex;
     teacher := ""; notes := "" |}.

(** Three courses with one section each; A and B meet on Monday, period 1. *)
Definition cA := mk "A" REQUIRED "1" 3 5 [("Mon", 1)] false false.
Definition cB := mk "B" REQUIRED "1" 2 3 [("Mon", 1)] false false.
Definition cC := mk "C" ELECTIVE "1" 2 4 [("Tue", 2)] false false.
Definition pool_abc : list Course := [cA; cB; cC].

(** Two sections of X, the plain one listed first, and one section of Y. *)
Definition cX2 := mk "X" REQUIRED "2" 3 2 [("Mon", 1)] false false.
Definition cX1 := mk "X" REQUIRED "1" 3 5 [("Tue", 1)] true false.
Definition cY := mk "Y" ELECTIVE "1" 2 3 [("Wed", 3)] false false.
Definition pool_xy : list Course := [cX2; cY; cX1].

(** A must-select course whose only section is excluded. *)
Definition cM := mk "M" REQUIRED "1" 3 5 [("Fri", 2)] true true.
Definition pool_missing : list Course := [cA; cM].

(** Result tuples that differ in their scores only. *)
Definition scored (cc tp tc : Z) : Schedule :=
  {| combo := []; total_priority := tp; total_credits := tc; req_credits := tc;
     ele_credits := 0; conflicts := None; conflict_count := cc |}.
Definition scored_list : list Schedule :=
  [scored 2 9 4; scored 0 7 4; scored 2 12 6; scored 0 8 2].

(** A section that lists Monday, period 1, twice. *)
Definition cDup := mk "D" REQUIRED "1" 3 5 [("Mon", 1); ("Mon", 1)] false false.

(** ** The session and the buttons of [main] *)

(** [st.session_state]: the course list, the two stored lists of schedules
    and the time slots collected so far by each of the two forms (a dictionary
    with the keys [REQUIRED] and [ELECTIVE], line 227). *)
Record session_state := {
  st_courses : list Course;
  st_generated_schedules : list Schedule;
  st_conflict_schedules : list Schedule;
  st_time_slots : gmap string (list (string * Z))
}.

(** Lines 217-227, on a fresh session. *)
Definition initial_session : session_state :=
  {| st_courses := []; st_generated_schedules := []; st_conflict_schedules := [];
     st_time_slots := {[ REQUIRED := []; ELECTIVE := [] ]} |}.

(** What a button reports; the messages of [generate_schedules] come first. *)
Inductive Notice :=
  | FromGenerator (m : Message)
  | SortApplied
  | NothingToSort
  | NoCourses
  | NoRequiredCourses
  | NoScheduleFound
  | SchedulesGenerated
  | TimeAdded (day : string) (period : Z)
  | TimesDeleted
  | IncompleteForm
  | DuplicateCourse (name class_id : string)
  | CourseAdded (name : string).

(** Lines 436-456, the button that applies the sort option. *)
Definition click_apply_sort (sort_option : string) (st : session_state)
    : session_state * list Notice :=
  if bool_decide (st_generated_schedules st ≠ [] ∨ st_conflict_schedules st ≠ [])
  then ({| st_courses := st_courses st;
           st_generated_schedules := rank sort_option (st_generated_schedules st);
           st_conflict_schedules := rank sort_option (st_conflict_schedules st);
           st_time_slots := st_time_slots st |}, [SortApplied])
  else (st, [NothingToSort]).

(** Lines 461-498, the button that generates the schedules. *)
Definition click_generate (sort_option : string) (st : session_state)
    : session_state * list Notice :=
  if bool_decide (st_courses st = []) then (st, [NoCourses])
  else
    let required_courses := required_of (st_courses st) in
    let elective_courses := elective_of (st_courses st) in
    if bool_decide (required_courses = []) then (st, [NoRequiredCourses])
    else
      let '(all_schedules, log) :=
        generate_schedules (st_courses st) required_courses elective_courses 1000 in
      if bool_decide (all_schedules = [])
      then (st, (FromGenerator <$> log) ++ [NoScheduleFound])
      else
        let conflict_free := filter (λ s, conflict_count s = 0) all_schedules in
        let conflict_yes := filter (λ s, 0 < conflict_count s) all_schedules in
        ({| st_courses := st_courses st;
            st_generated_schedules := rank sort_option conflict_free;
            st_conflict_schedules := rank sort_option conflict_yes;
            st_time_slots := st_time_slots st |},
         (FromGenerator <$> log) ++ [SchedulesGenerated]).

(** [del l[idx]] for an index that is not negative; [None] is Python's
    [IndexError]. *)
Definition py_del {A} (idx : nat) (l : list A) : option (list A) :=
  if decide (idx < length l)%nat then Some (delete idx l) else None.

(** [sorted(l, reverse=True)] on indices: the stable sort on the reversed
    comparison, which on integers is the stable sort on the negated value. *)
Definition sorted_reverse (l : list nat) : list nat :=
  sorted_by (λ i, - Z.of_nat i) l.

(** Lines 288-291: the indices whose check box is ticked, [boxes idx] being
    the state of the box with key [del_<type>_<idx>]. *)
Definition delete_indices {A} (boxes : nat → bool) (time_slots : list A) : list nat :=
  filter (λ idx, boxes idx = true) (seq 0 (length time_slots)).

(** Lines 295-296. *)
Definition delete_selected {A} (boxes : nat → bool) (time_slots : list A)
    : option (list A) :=
  foldl (λ acc idx, l ← acc; py_del idx l) (Some time_slots)
    (sorted_reverse (delete_indices boxes time_slots)).

(** Lines 280-283, the button that adds a time; [None] is Python's
    [KeyError] for a form type without an entry. *)
Definition click_add_time (course_type day : string) (period : Z) (st : session_state)
    : option (session_state * list Notice) :=
  time_slots ← st_time_slots st !! course_type;
  Some ({| st_courses := st_courses st;
           st_generated_schedules := st_generated_schedules st;
           st_conflict_schedules := st_conflict_schedules st;
           st_time_slots := <[course_type := time_slots ++ [(day, period)]]>
                              (st_time_slots st) |},
        [TimeAdded day period]).

(** Lines 285-298, the button that deletes the ticked times; it is shown only
    when the form has times. *)
Definition click_delete_times (course_type : string) (boxes : nat → bool)
    (st : session_state) : option (session_state * list Notice) :=
  time_slots ← st_time_slots st !! course_type;
  if bool_decide (time_slots = []) then Some (st, [])
  else
    remaining ← delete_selected boxes time_slots;
    Some ({| st_courses := st_courses st;
             st_generated_schedules := st_generated_schedules st;
             st_conflict_schedules := st_conflict_schedules st;
             st_time_slots := <[course_type := remaining]> (st_time_slots st) |},
          [TimesDeleted]).

(** Lines 303-332, the button that adds the course of the form; the
    arguments are the values of the widgets of the form. *)
Definition click_add_course (course_type form_name form_class_id : string)
    (form_credits form_priority : Z) (form_teacher form_notes : string)
    (form_must_select form_temporarily_exclude : bool)
    (st : session_state) : option (session_state * list Notice) :=
  form_time_slots ← st_time_slots st !! course_type;
  if bool_decide (form_name = "" ∨ form_class_id = "" ∨ form_time_slots = [])
  then Some (st, [IncompleteForm])
  else if existsb (λ c, bool_decide (name c = form_name)
                        && bool_decide (class_id c = form_class_id))
            (st_courses st)
  then Some (st, [DuplicateCourse form_name form_class_id])
  else
    let new_course :=
      {| name := form_name; type := course_type; class_id := form_class_id;
         credits := form_credits; priority := form_priority;
         time_slots := form_time_slots; must_select := form_must_select;
         temporarily_exclude := form_temporarily_exclude;
         teacher := form_teacher; notes := form_notes |} in
    Some ({| st_courses := st_courses st ++ [new_course];
             st_generated_schedules := st_generated_schedules st;
             st_conflict_schedules := st_conflict_schedules st;
             st_time_slots := <[course_type := []]> (st_time_slots st) |},
          [CourseAdded form_name]).

(** The elements of [l] whose check box is not ticked, in their order. *)
Definition unticked {A} (boxes : nat → bool) (l : list A) : list A :=
  (filter (λ ix, boxes ix.1 = false) (zip (seq 0 (length l)) l)).*2.

(** No two courses of the list share name and class. *)
Definition unique_sections (courses : list Course) : Prop :=
  NoDup ((λ c, (name c, class_id c)) <$> courses).

(** A course with a name, a class and at least one time. *)
Definition complete_course (c : Course) : Prop :=
  name c ≠ "" ∧ class_id c ≠ "" ∧ time_slots c ≠ [].

(** Both forms have their entry in the time-slot dictionary. *)
Definition forms_present (st : session_state) : Prop :=
  is_Some (st_time_slots st !! REQUIRED) ∧ is_Some (st_time_slots st !! ELECTIVE).

(** ** [display_schedule_grid]: the table before it is styled *)

Definition days : list string := ["Mon"; "Tue"; "Wed"; "Thu"; "Fri"].

(** [list(range(1, 11))] *)
Definition periods : list Z := [1; 2; 3; 4; 5; 6; 7; 8; 9; 10].

(** [pd.DataFrame("", index=periods, columns=days)]; the cell
    [.at[period, day]] is the entry with key [(period, day)]. *)
Definition empty_frame : gmap (Z * string) string :=
  list_to_map (period ← periods; day ← days; [((period, day), "")]).

(** [f"{course.name}({course.teacher})" if course.teacher else f"{course.name}"] *)
Definition course_label (course : Course) : string :=
  if bool_decide (teacher course ≠ "")
  then name course +:+ "(" +:+ teacher course +:+ ")"
  else name course.

(** Lines 155-160, for one time slot of one course. *)
Definition fill_cell (schedule_df : gmap (Z * string) string) (course : Course)
    (slot : string * Z) : gmap (Z * string) string :=
  let '(day, period) := slot in
  if bool_decide (day ∈ days ∧ 1 ≤ period ∧ period ≤ 10)
  then
    if bool_decide (schedule_df !!! (period, day) ≠ "")
    then <[(period, day) :=
             schedule_df !!! (period, day) +:+ ", " +:+ course_label course]> schedule_df
    else <[(period, day) := course_label course]> schedule_df
  else schedule_df.

(** Lines 146-163: the table that is handed to the styler. *)
Definition schedule_frame (combo : list Course) : gmap (Z * string) string :=
  (λ cell, if bool_decide (cell = "") then "-" else cell)
    <$> foldl (λ schedule_df course,
                 foldl (λ schedule_df slot, fill_cell schedule_df course slot)
                   schedule_df (time_slots course))
          empty_frame combo.

(** The text a cell collects from the labels that are written to it, one
    after the other. *)
Definition cell_text (labels : list string) : string :=
  foldl (λ cell label, if bool_decide (cell ≠ "") then cell +:+ ", " +:+ label else label)
    "" labels.

(** ** The course file: [save_courses_to_json] and [load_courses_from_json] *)

(** The values that [json.dumps] writes and [json.load] builds: [None],
    [bool], [int], [float] (kept as its literal), [str], [list] and [dict],
    a dictionary with its keys in insertion order. The text in between is
    not modelled: saving gives the value that is written, loading takes the
    value that is read. *)
#[local] Set Warnings "-register-all".
Inductive json :=
  | JNull
  | JBool (b : bool)
  | JInt (n : Z)
  | JFloat (literal : string)
  | JString (s : string)
  | JArray (items : list json)
  | JObject (members : dict string json).

(** [asdict(c)]: the fields in the order of the class, a tuple of
    [time_slots] written as the array that [json.dumps] makes of it. *)
Definition asdict (c : Course) : json :=
  JObject [("name", JString (name c));
           ("type", JString (type c));
           ("class_id", JString (class_id c));
           ("credits", JInt (credits c));
           ("priority", JInt (priority c));
           ("time_slots",
            JArray ((λ ts, JArray [JString ts.1; JInt ts.2]) <$> time_slots c));
           ("must_select", JBool (must_select c));
           ("temporarily_exclude", JBool (temporarily_exclude c));
           ("teacher", JString (teacher c));
           ("notes", JString (notes c))].

(** Lines 24-25. *)
Definition save_courses_to_json (courses : list Course) : json :=
  JArray (asdict <$> courses).

(** What an expression of the loader gives: an exception on its way to
    [except]; a value of a type that the fields of [Course] do not hold in
    this model (a [float] as credits, a tuple of three), which Python stores
    without a check; or a value. *)
Inductive attempt (A : Type) :=
  | Raised
  | Foreign
  | Value (a : A).
Arguments Raised {A}.
Arguments Foreign {A}.
Arguments Value {A} a.

(** A call evaluates all its arguments, in their order, and raises when one
    of them raises. *)
Definition attempt_ap {A B} (f : attempt (A → B)) (x : attempt A) : attempt B :=
  match f, x with
  | Raised, _ | _, Raised => Raised
  | Foreign, _ | _, Foreign => Foreign
  | Value f, Value a => Value (f a)
  end.

Infix "<*>" := attempt_ap (at level 61, left associativity).

(** The results of a loop or a comprehension whose body gives [x] for the
    elements in turn. *)
Definition collect {A} (xs : list (attempt A)) : attempt (list A) :=
  foldr (λ x acc, Value cons <*> x <*> acc) (Value []) xs.

Definition as_str (v : json) : option string :=
  match v with JString s => Some s | _ => None end.

Definition as_int (v : json) : option Z :=
  match v with JInt n => Some n | _ => None end.

Definition as_bool (v : json) : option bool :=
  match v with JBool b => Some b | _ => None end.

(** A value that is kept when it has the type of its field. *)
Definition typed {A} (as_type : json → option A) (v : attempt json) : attempt A :=
  match v with
  | Raised => Raised
  | Foreign => Foreign
  | Value v => match as_type v with Some a => Value a | None => Foreign end
  end.

(** [item[key]]: a [KeyError] for a dictionary without the key, a
    [TypeError] for every other value. *)
Definition subscript (item : json) (key : string) : attempt json :=
  match item with
  | JObject members =>
      match dict_get key members with Some v => Value v | None => Raised end
  | _ => Raised
  end.

(** [item.get(key, dflt)]: an [AttributeError] for a value that is no
    dictionary. *)
Definition get (item : json) (key : string) (dflt : json) : attempt json :=
  match item with
  | JObject members => Value (default dflt (dict_get key members))
  | _ => Raised
  end.

(** [tuple(ts)]: a list gives the tuple of its elements; a string gives the
    tuple of its characters and a dictionary that of its keys, never a day
    with a period; the other values cannot be iterated. *)
Definition py_tuple (ts : json) : attempt (string * Z) :=
  match ts with
  | JArray [JString day; JInt period] => Value (day, period)
  | JArray _ | JString _ | JObject _ => Foreign
  | JNull | JBool _ | JInt _ | JFloat _ => Raised
  end.

(** [[tuple(ts) for ts in v]]: the characters of a string and the keys of a
    dictionary are strings, which [tuple] takes. *)
Definition tuples (v : attempt json) : attempt (list (string * Z)) :=
  match v with
  | Raised => Raised
  | Foreign => Foreign
  | Value (JArray items) => collect (py_tuple <$> items)
  | Value (JString s) => if decide (s = "") then Value [] else Foreign
  | Value (JObject members) => if decide (members = []) then Value [] else Foreign
  | Value (JNull | JBool _ | JInt _ | JFloat _) => Raised
  end.

(** Lines 34-45, the course of one item. *)
Definition load_item (item : json) : attempt Course :=
  Value Build_Course
    <*> typed as_str (subscript item "name")
    <*> typed as_str (subscript item "type")
    <*> typed as_str (subscript item "class_id")
    <*> typed as_int (subscript item "credits")
    <*> typed as_int (get item "priority" (JInt 3))
    <*> tuples (subscript item "time_slots")
    <*> typed as_bool (get item "must_select" (JBool false))
    <*> typed as_bool (get item "temporarily_exclude" (JBool false))
    <*> typed as_str (get item "teacher" (JString ""))
    <*> typed as_str (get item "notes" (JString "")).

(** Lines 32-47, [for item in data]: the items of a string are its
    characters and those of a dictionary its keys, strings for which
    [item['name']] raises. *)
Definition load_items (data : json) : attempt (list Course) :=
  match data with
  | JArray items => collect (load_item <$> items)
  | JString s => if decide (s = "") then Value [] else Raised
  | JObject members => if decide (members = []) then Value [] else Raised
  | JNull | JBool _ | JInt _ | JFloat _ => Raised
  end.

(** What the side bar reports. *)
Inductive FileNotice :=
  | LoadFailed
  | CoursesLoaded (count : nat)
  | NothingToSave
  | DownloadOffered (json_data : json)
  | SaveReady.

(** Lines 28-50. [uploaded_file] is the value that [json.load] reads, [None]
    for a file that is not JSON text in UTF-8, where line 30 or 31 raises.
    The result is the returned list with what is reported; there is none
    for a file with values that this model does not hold. *)
Definition load_courses_from_json (uploaded_file : option json)
    : option (list Course * list FileNotice) :=
  match from_option load_items Raised uploaded_file with
  | Value courses => Some (courses, [])
  | Raised => Some ([], [LoadFailed])
  | Foreign => None
  end.

(** Lines 232-237, for a file that has been chosen. *)
Definition upload_courses (uploaded_file : option json) (st : session_state)
    : option (session_state * list FileNotice) :=
  '(loaded_courses, log) ← load_courses_from_json uploaded_file;
  if bool_decide (loaded_courses = []) then Some (st, log)
  else Some ({| st_courses := loaded_courses;
                st_generated_schedules := st_generated_schedules st;
                st_conflict_schedules := st_conflict_schedules st;
                st_time_slots := st_time_slots st |},
             log ++ [CoursesLoaded (length loaded_courses)]).

(** Lines 240-251, the button that saves the courses. *)
Definition click_save (st : session_state) : list FileNotice :=
  if bool_decide (st_courses st = []) then [NothingToSave]
  else [DownloadOffered (save_courses_to_json (st_courses st)); SaveReady].

(** The keys that line 35-38 and 40 read with a subscript. *)
Definition mandatory_keys : list string :=
  ["name"; "type"; "class_id"; "credits"; "time_slots"].

(** The values that cannot be iterated. *)
Definition scalar (v : json) : Prop :=
  match v with
  | JNull | JBool _ | JInt _ | JFloat _ => True
  | JString _ | JArray _ | JObject _ => False
  end.

(** An item for which the loader raises: no dictionary, a dictionary without
    one of the mandatory keys, or one whose time slots cannot be iterated or
    hold a time slot that cannot. *)
Definition broken (item : json) : Prop :=
  ∀ members, item = JObject members →
    (∃ key, key ∈ mandatory_keys ∧ dict_get key members = None)
    ∨ (∃ v, dict_get "time_slots" members = Some v
            ∧ (scalar v ∨ ∃ items ts, v = JArray items ∧ ts ∈ items ∧ scalar ts)).

(** ** Further notions *)

(** The sections of [combo] that list slot [k], in the order of [combo], once
    for every listing. *)
Definition occupant_list (k : string * Z) (combo : list Course) : list Course :=
  c ← combo; (λ _, c) <$> filter (λ ts, ts = k) (time_slots c).

(** The number of distinct slots that the sections of [combo] list. *)
Definition distinct_slots (combo : list Course) : nat :=
  size (list_to_set (C:=gset (string * Z)) (combo ≫= time_slots)).

(** The order inside a course group: must-select sections before the others,
    and a higher priority first among sections with the same flag. *)
Definition group_order (a b : Course) : Prop :=
  (must_select b = true → must_select a = true)
  ∧ (must_select a = must_select b → priority b ≤ priority a).

(** The order of a ranked list with total credits as a third key. *)
Definition policy_order (sort_option : string) (a b : Schedule) : Prop :=
  py_lt (sort_key sort_option a) (sort_key sort_option b) = true
  ∨ (sort_key sort_option a = sort_key sort_option b
     ∧ total_credits b ≤ total_credits a).

(** * Properties *)

(** ** The comparison laws *)

Global Instance Z_py_lt_laws : PyLtLaws Z.
Proof.
  split; unfold py_lt, Z_py_lt; intros.
  - apply Z.ltb_irrefl.
  - apply Z.ltb_lt. apply Z.ltb_lt in H, H0. lia.
  - apply Z.ltb_ge in H, H0. lia.
Qed.

Global Instance bool_py_lt_laws : PyLtLaws bool.
Proof.
  split; unfold py_lt, bool_py_lt.
  - by intros [].
  - by intros [] [] [].
  - by intros [] [].
Qed.

Global Instance pair_py_lt_laws {A B} `{EqDecision A, PyLt A, PyLt B}
  `{!PyLtLaws A, !PyLtLaws B} : PyLtLaws (A * B).
Proof.
  split; unfold py_lt, pair_py_lt.
  - intros [a b]; simpl. case_bool_decide; apply py_lt_irrefl.
  - intros [a1 a2] [b1 b2] [c1 c2]; simpl.
    repeat case_bool_decide; subst; try done; eauto using py_lt_trans.
    intros Hab Hba. pose proof (py_lt_trans _ _ _ Hab Hba) as Hcc.
    by rewrite py_lt_irrefl in Hcc.
  - intros [a1 a2] [b1 b2]; simpl.
    repeat case_bool_decide; subst; try done.
    + intros Hab Hba. f_equal. by apply py_lt_total.
    + intros Hab Hba. by destruct (py_lt_total _ _ Hab Hba).
Qed.

Section py_lt_facts.
Context {K : Type} `{PyLtLaws K}.

Lemma py_lt_asym (a b : K) : py_lt a b = true → py_lt b a = false.
Proof.
  intros Hab. destruct (py_lt b a) eqn:Hba; [|done].
  by rewrite <-(py_lt_irrefl a), (py_lt_trans a b a).
Qed.

Lemma py_le_refl (a : K) : py_le a a.
Proof. apply py_lt_irrefl. Qed.

Lemma py_le_trans (a b c : K) : py_le a b → py_le b c → py_le a c.
Proof.
  unfold py_le. intros Hab Hbc.
  destruct (py_lt c a) eqn:Hca; [|done].
  destruct (py_lt a b) eqn:Hab'.
  - by rewrite (py_lt_trans c a b) in Hbc.
  - rewrite (py_lt_total _ _ Hab' Hab) in Hca. congruence.
Qed.

Lemma py_le_antisym (a b : K) : py_le a b → py_le b a → a = b.
Proof.
  unfold py_le. intros Hab Hba. by apply py_lt_total.
Qed.

Lemma py_lt_le (a b : K) : py_lt a b = true → py_le a b.
Proof. apply py_lt_asym. Qed.
End py_lt_facts.

Global Instance py_le_transitive {K} `{PyLtLaws K} : Transitive (py_le (K:=K)).
Proof. intros a b c. apply py_le_trans. Qed.

(** ** The stable sort *)

Section sorting_facts.
Context {A K : Type} `{PyLtLaws K} (key : A → K).

Global Instance key_le_trans : Transitive (key_le key).
Proof. intros x y z. apply (py_le_trans (key x) (key y) (key z)). Qed.

Lemma insert_by_perm (x : A) l : insert_by key x l ≡ₚ x :: l.
Proof.
  induction l as [|y l IH]; simpl; [done|].
  destruct (py_lt (key y) (key x)); [|done].
  by rewrite IH, Permutation_swap.
Qed.

Lemma sorted_by_perm l : sorted_by key l ≡ₚ l.
Proof.
  induction l as [|x l IH]; simpl; [done|].
  by rewrite insert_by_perm, IH.
Qed.

Lemma length_sorted_by l : length (sorted_by key l) = length l.
Proof. by rewrite sorted_by_perm. Qed.

Lemma elem_of_sorted_by x l : x ∈ sorted_by key l ↔ x ∈ l.
Proof. by rewrite sorted_by_perm. Qed.

Lemma insert_by_sorted x l :
  Sorted (key_le key) l → Sorted (key_le key) (insert_by key x l).
Proof.
  induction 1 as [|y l Hl IH Hhd]; simpl.
  - by repeat constructor.
  - destruct (py_lt (key y) (key x)) eqn:Hyx.
    + constructor; [done|].
      destruct Hhd as [|z l Hyz]; simpl.
      * constructor. by apply py_lt_le.
      * destruct (py_lt (key z) (key x)); constructor; [done|].
        by apply py_lt_le.
    + repeat constructor; done.
Qed.

Lemma sorted_by_sorted l : Sorted (key_le key) (sorted_by key l).
Proof.
  induction l as [|x l IH]; simpl; [constructor|].
  by apply insert_by_sorted.
Qed.

Lemma sorted_by_strongly_sorted l : StronglySorted (key_le key) (sorted_by key l).
Proof. apply Sorted_StronglySorted; [apply _|apply sorted_by_sorted]. Qed.

(** A list that is already in key order is left as it is. *)
Lemma sorted_by_id l : Sorted (key_le key) l → sorted_by key l = l.
Proof.
  induction 1 as [|x l Hl IH Hhd]; simpl; [done|].
  rewrite IH. by destruct Hhd as [|y l Hxy]; simpl; [|rewrite Hxy].
Qed.

Lemma sorted_by_idemp l : sorted_by key (sorted_by key l) = sorted_by key l.
Proof. apply sorted_by_id, sorted_by_sorted. Qed.

Context `{EqDecision K}.

(** Stability: elements with the same key keep their relative order. *)
Lemma insert_by_filter_key k x l :
  filter (λ y, key y = k) (insert_by key x l) = filter (λ y, key y = k) (x :: l).
Proof.
  induction l as [|y l IH]; simpl; [done|].
  destruct (py_lt (key y) (key x)) eqn:Hyx; [|done].
  rewrite (filter_cons _ y), IH, !filter_cons.
  destruct (decide (key y = k)) as [Hy|Hy], (decide (key x = k)) as [Hx|Hx];
    try done.
  by rewrite Hy, Hx, py_lt_irrefl in Hyx.
Qed.

Lemma sorted_by_filter_key k l :
  filter (λ y, key y = k) (sorted_by key l) = filter (λ y, key y = k) l.
Proof.
  induction l as [|x l IH]; simpl; [done|].
  by rewrite insert_by_filter_key, !filter_cons, IH.
Qed.

(** Two lists in key order with the same elements in the same relative
    order for every key are equal: the result of a stable sort is unique. *)
Lemma stable_sorted_unique l1 l2 :
  StronglySorted (key_le key) l1 → StronglySorted (key_le key) l2 →
  (∀ k, filter (λ y, key y = k) l1 = filter (λ y, key y = k) l2) →
  l1 = l2.
Proof.
  intros Hl1. revert l2.
  induction Hl1 as [|x l1 Hl1 IH Hx]; intros l2 Hl2 Hf.
  - destruct l2 as [|y l2]; [done|].
    specialize (Hf (key y)). rewrite filter_cons_True in Hf by done. done.
  - destruct Hl2 as [|y l2 Hl2 Hy].
    { specialize (Hf (key x)). rewrite filter_cons_True in Hf by done. done. }
    assert (key x = key y) as Hk.
    { apply py_le_antisym.
      - assert (y ∈ filter (λ z, key z = key y) (x :: l1)) as Hin.
        { rewrite Hf, filter_cons_True by done. left. }
        apply list_elem_of_filter in Hin as [_ Hin].
        apply elem_of_cons in Hin as [->|Hin]; [apply py_le_refl|].
        rewrite Forall_forall in Hx. by apply Hx.
      - assert (x ∈ filter (λ z, key z = key x) (y :: l2)) as Hin.
        { rewrite <-Hf, filter_cons_True by done. left. }
        apply list_elem_of_filter in Hin as [_ Hin].
        apply elem_of_cons in Hin as [->|Hin]; [apply py_le_refl|].
        rewrite Forall_forall in Hy. by apply Hy. }
    pose proof (Hf (key x)) as Hfx.
    rewrite filter_cons_True, (filter_cons_True _ y) in Hfx by done.
    injection Hfx as -> Hfx. f_equal. apply IH; [done|].
    intros k. specialize (Hf k). rewrite !filter_cons in Hf.
    case_decide; [|done]. by injection Hf.
Qed.

(** Any stable sort agrees with [sorted_by]. *)
Lemma sorted_by_stable l l' :
  StronglySorted (key_le key) l' →
  (∀ k, filter (λ y, key y = k) l' = filter (λ y, key y = k) l) →
  l' = sorted_by key l.
Proof.
  intros Hs Hf. apply stable_sorted_unique; [done|apply sorted_by_strongly_sorted|].
  intros k. by rewrite sorted_by_filter_key.
Qed.
End sorting_facts.

(** ** Dictionaries filled by appending *)

Section dict_facts.
Context {K V : Type} `{EqDecision K}.
Implicit Types (k : K) (ks : list K) (d : dict K (list V)) (L : list (K * V)).

Lemma filter_all {A} (P : A → Prop) `{∀ x, Decision (P x)} (l : list A) :
  Forall P l → filter P l = l.
Proof.
  induction 1 as [|x l Hx Hl IH]; [done|].
  by rewrite filter_cons_True, IH.
Qed.

Lemma elem_of_first_seen k ks : k ∈ first_seen ks ↔ k ∈ ks.
Proof.
  induction ks as [|x ks IH]; simpl; [done|].
  rewrite !elem_of_cons, list_elem_of_filter, IH.
  destruct (decide (k = x)); naive_solver.
Qed.

Lemma NoDup_first_seen ks : NoDup (first_seen ks).
Proof.
  induction ks as [|x ks IH]; simpl; constructor.
  - rewrite list_elem_of_filter. naive_solver.
  - by apply NoDup_filter.
Qed.

Lemma first_seen_snoc ks k :
  first_seen (ks ++ [k]) = first_seen ks ++ (if decide (k ∈ ks) then [] else [k]).
Proof.
  induction ks as [|x ks IH]; simpl; [done|].
  rewrite IH, filter_app. f_equal. f_equal.
  destruct (decide (k = x)) as [->|Hne].
  - rewrite (decide_True (P:=x ∈ x :: ks)) by left.
    by destruct (decide (x ∈ ks)); [|rewrite filter_cons_False by naive_solver].
  - destruct (decide (k ∈ ks)) as [Hin|Hin].
    + by rewrite decide_True by by right.
    + rewrite decide_False by (rewrite elem_of_cons; naive_solver).
      by rewrite filter_cons_True.
Qed.

Lemma first_seen_app ks1 ks2 :
  first_seen (ks1 ++ ks2) = first_seen ks1 ++ filter (λ k, k ∉ ks1) (first_seen ks2).
Proof.
  induction ks1 as [|x ks1 IH]; simpl.
  - symmetry. apply filter_all, Forall_forall. intros k _. apply not_elem_of_nil.
  - rewrite IH, filter_app, list_filter_filter. do 2 f_equal.
    apply list_filter_iff. intros k. rewrite not_elem_of_cons. naive_solver.
Qed.

(** An element stands right after the distinct elements that were met before
    its first occurrence. *)
Lemma first_seen_first_occurrence ks1 k ks2 :
  k ∉ ks1 → first_seen (ks1 ++ k :: ks2) !! length (first_seen ks1) = Some k.
Proof.
  intros Hk. rewrite first_seen_app; simpl.
  rewrite filter_cons_True by done. by rewrite list_lookup_middle.
Qed.

Lemma first_seen_NoDup ks : NoDup ks → first_seen ks = ks.
Proof.
  induction 1 as [|x ks Hx Hks IH]; simpl; [done|].
  rewrite IH. f_equal. apply filter_all, Forall_forall. naive_solver.
Qed.

(** The dictionary whose keys are [ks], in this order, with values [g]. *)
Lemma dict_get_tabulate {W} (g : K → W) ks k :
  dict_get k ((λ k', (k', g k')) <$> ks) = if decide (k ∈ ks) then Some (g k) else None.
Proof.
  induction ks as [|x ks IH]; csimpl; [done|].
  destruct (decide (k = x)) as [->|Hne].
  - by rewrite decide_True by left.
  - rewrite IH. destruct (decide (k ∈ ks)) as [Hin|Hin].
    + by rewrite decide_True by by right.
    + by rewrite decide_False by (rewrite elem_of_cons; naive_solver).
Qed.

Lemma dict_map_values_tabulate {W1 W2} (f : W1 → W2) (g : K → W1) ks :
  dict_map_values f ((λ k, (k, g k)) <$> ks) = (λ k, (k, f (g k))) <$> ks.
Proof. unfold dict_map_values. by rewrite <-list_fmap_compose. Qed.

Lemma dict_keys_tabulate {W} (g : K → W) ks :
  dict_keys ((λ k, (k, g k)) <$> ks) = ks.
Proof. unfold dict_keys. rewrite <-list_fmap_compose. apply list_fmap_id. Qed.

Lemma dict_append_tabulate (g : K → list V) ks k x :
  NoDup ks → (k ∉ ks → g k = []) →
  dict_append k x ((λ k', (k', g k')) <$> ks)
  = (λ k', (k', if decide (k' = k) then g k' ++ [x] else g k'))
      <$> (ks ++ if decide (k ∈ ks) then [] else [k]).
Proof.
  induction 1 as [|k0 ks Hk0 Hks IH]; intros Hg; csimpl.
  - rewrite decide_True by done. by rewrite Hg by apply not_elem_of_nil.
  - destruct (decide (k = k0)) as [->|Hne].
    + rewrite decide_True by done. rewrite (decide_True (P:=k0 ∈ k0 :: ks)) by left.
      rewrite app_nil_r. f_equal. apply list_fmap_ext.
      intros i k' Hk'%list_elem_of_lookup_2. rewrite decide_False; [done|].
      by intros ->.
    + rewrite decide_False by done. f_equal. rewrite IH.
      * f_equal. f_equal. destruct (decide (k ∈ ks)) as [Hin|Hin].
        -- by rewrite decide_True by by right.
        -- by rewrite decide_False by (rewrite elem_of_cons; naive_solver).
      * intros Hin. apply Hg. rewrite elem_of_cons. naive_solver.
Qed.

Lemma values_of_snoc k L kv :
  values_of k (L ++ [kv]) = values_of k L ++ (if decide (kv.1 = k) then [kv.2] else []).
Proof.
  unfold values_of. rewrite filter_app, fmap_app. f_equal.
  rewrite filter_cons, filter_nil. by destruct (decide (kv.1 = k)).
Qed.

Lemma values_of_nil_iff k L : values_of k L = [] ↔ k ∉ L.*1.
Proof.
  unfold values_of. induction L as [|[k' v] L IH]; simpl.
  - split; [intros _; apply not_elem_of_nil|done].
  - rewrite filter_cons; simpl. rewrite not_elem_of_cons.
    destruct (decide (k' = k)) as [->|Hne]; simpl; [naive_solver|].
    rewrite IH. naive_solver.
Qed.

Lemma elem_of_values_of k v L : v ∈ values_of k L ↔ (k, v) ∈ L.
Proof.
  unfold values_of. rewrite list_elem_of_fmap. split.
  - intros [[k' v'] [-> [<- Hin]%list_elem_of_filter]]. done.
  - intros Hin. exists (k, v). by rewrite list_elem_of_filter.
Qed.

(** What a dictionary filled by appending holds: its keys are the keys of
    the appended pairs in the order of their first occurrence, and every key
    holds its values in the order in which they were appended. *)
Theorem dict_extend_nil L :
  dict_extend [] L = (λ k, (k, values_of k L)) <$> first_seen L.*1.
Proof.
  induction L as [|[k v] L IH] using rev_ind; [done|].
  rewrite (fmap_app fst); csimpl. rewrite first_seen_snoc.
  unfold dict_extend. rewrite foldl_snoc. fold (dict_extend [] L).
  rewrite IH; csimpl. rewrite dict_append_tabulate.
  - rewrite (decide_ext (k ∈ first_seen L.*1) (k ∈ L.*1))
      by apply elem_of_first_seen.
    apply list_fmap_ext. intros i k' _. f_equal.
    rewrite values_of_snoc; simpl.
    destruct (decide (k' = k)) as [->|Hne].
    + by rewrite decide_True.
    + rewrite decide_False by done. by rewrite app_nil_r.
  - apply NoDup_first_seen.
  - rewrite elem_of_first_seen. apply values_of_nil_iff.
Qed.

Lemma dict_extend_app d L1 L2 :
  dict_extend d (L1 ++ L2) = dict_extend (dict_extend d L1) L2.
Proof. apply foldl_app. Qed.

Lemma dict_keys_extend L : dict_keys (dict_extend [] L) = first_seen L.*1.
Proof.
  rewrite dict_extend_nil. unfold dict_keys.
  rewrite <-list_fmap_compose. apply list_fmap_id.
Qed.

Lemma dict_at_extend k L : dict_at k (dict_extend [] L) = values_of k L.
Proof.
  unfold dict_at. rewrite dict_extend_nil, dict_get_tabulate.
  destruct (decide _) as [Hin|Hin]; [done|]. simpl. symmetry.
  apply values_of_nil_iff. by rewrite elem_of_first_seen in Hin.
Qed.
End dict_facts.

(** ** The Cartesian product *)

Section product_facts.
Context {A : Type}.
Implicit Types (pool : list A) (pools : list (list A)) (t : list A).

Local Abbreviation step := (λ (result : list (list A)) pool,
                          x ← result; (λ y, x ++ [y]) <$> pool).

Lemma product_nil : product (A:=A) [] = [[]].
Proof. done. Qed.

Lemma product_step_cons (a : list A) pool (P : list (list A)) :
  ((λ y, a ++ [y]) <$> pool) ≫= (λ a', (a' ++.) <$> P)
  = (a ++.) <$> (pool ≫= λ y, (y ::.) <$> P).
Proof.
  induction pool as [|y pool IH]; csimpl; [done|].
  rewrite IH, fmap_app. f_equal.
  rewrite <-list_fmap_compose. apply list_fmap_ext. intros _ t _; simpl.
  by rewrite <-app_assoc.
Qed.

Lemma foldl_product_step (acc : list (list A)) pools :
  foldl step acc pools = a ← acc; (a ++.) <$> foldl step [[]] pools.
Proof.
  revert acc. induction pools as [|pool pools IH]; intros acc; simpl.
  - induction acc as [|a acc IHacc]; csimpl; [done|].
    by rewrite app_nil_r, <-IHacc.
  - rewrite IH, (IH (_ ++ [])), app_nil_r.
    induction acc as [|a acc IHacc]; csimpl; [done|].
    rewrite bind_app, IHacc. f_equal.
    rewrite product_step_cons. f_equal.
    by rewrite list_fmap_bind.
Qed.

(** The nested-loop reading of the product: the first pool is the outer
    loop. *)
Lemma product_cons pool pools :
  product (pool :: pools) = x ← pool; (x ::.) <$> product pools.
Proof.
  unfold product; simpl. rewrite foldl_product_step; csimpl.
  rewrite app_nil_r, list_fmap_bind. by apply list_bind_ext.
Qed.

Lemma length_bind_uniform {B} (f : A → list B) (m : nat) (l : list A) :
  (∀ x, length (f x) = m) → length (l ≫= f) = (length l * m)%nat.
Proof.
  intros Hf. induction l as [|x l IH]; csimpl; [done|].
  by rewrite length_app, Hf, IH.
Qed.

Lemma length_product pools : length (product pools) = product_size pools.
Proof.
  induction pools as [|pool pools IH]; [done|].
  rewrite product_cons; simpl. rewrite <-IH.
  apply length_bind_uniform. intros x. apply length_fmap.
Qed.

Lemma elem_of_product t pools :
  t ∈ product pools ↔ Forall2 (λ x pool, x ∈ pool) t pools.
Proof.
  revert t. induction pools as [|pool pools IH]; intros t.
  - rewrite product_nil, list_elem_of_singleton. split; [by intros ->|].
    by intros ->%Forall2_nil_inv_r.
  - rewrite product_cons, list_elem_of_bind. split.
    + intros (x & (t' & -> & Ht')%list_elem_of_fmap & Hx).
      constructor; [done|]. by apply IH.
    + intros (x & t' & Hx & Ht' & ->)%Forall2_cons_inv_r.
      exists x. split; [|done]. apply list_elem_of_fmap. exists t'.
      split; [done|]. by apply IH.
Qed.

Lemma lookup_bind_uniform {B} (f : A → list B) (m : nat) (l : list A) (i : nat) :
  (∀ x, length (f x) = m) → (0 < m)%nat →
  (l ≫= f) !! i = x ← l !! (i / m)%nat; f x !! (i mod m)%nat.
Proof.
  intros Hf Hm. revert i. induction l as [|x l IH]; intros i; csimpl; [done|].
  destruct (decide (i < m)%nat) as [Hi|Hi].
  - rewrite lookup_app_l by by rewrite Hf.
    by rewrite Nat.div_small, Nat.mod_small.
  - rewrite lookup_app_r by (rewrite Hf; lia). rewrite Hf, IH.
    assert (i / m = S ((i - m) / m))%nat as ->.
    { replace i with ((i - m) + 1 * m)%nat at 1 by lia.
      rewrite Nat.div_add by lia. lia. }
    assert (i mod m = (i - m) mod m)%nat as ->; [|done].
    replace i with ((i - m) + 1 * m)%nat at 1 by lia.
    by rewrite Nat.Div0.mod_add.
Qed.

(** Position [i] of the product holds the tuple whose digits spell [i]. *)
Lemma lookup_product pools (i : nat) :
  (i < product_size pools)%nat → product pools !! i = tuple_at pools i.
Proof.
  revert i. induction pools as [|pool pools IH]; intros i Hi.
  - simpl in Hi. by replace i with 0%nat by lia.
  - rewrite product_cons. simpl in *.
    assert (0 < product_size pools)%nat as Hm by nia.
    rewrite (lookup_bind_uniform _ (product_size pools)); [|
      by intros x; rewrite length_fmap, length_product|done].
    destruct (pool !! _) as [x|]; simpl; [|done].
    rewrite list_lookup_fmap, IH by by apply Nat.mod_upper_bound; lia.
    by destruct (tuple_at _ _).
Qed.
End product_facts.

(** ** Grouping the available sections by name *)

Section grouping.
Implicit Types (c : Course) (n : string) (available combo : list Course).

Lemma any_named_true n l : any_named n l = true ↔ n ∈ name <$> l.
Proof.
  unfold any_named. rewrite existsb_exists, list_elem_of_fmap. split.
  - intros (c & Hc%list_elem_of_In & Hn%bool_decide_eq_true). eauto.
  - intros (c & -> & Hc). exists c. rewrite bool_decide_eq_true.
    by rewrite <-list_elem_of_In.
Qed.

Lemma values_of_name n (l : list Course) :
  values_of n ((λ c, (name c, c)) <$> l) = filter (λ c, name c = n) l.
Proof.
  unfold values_of. induction l as [|c l IH]; csimpl; [done|].
  rewrite !filter_cons; simpl. destruct (decide (name c = n)); csimpl; by rewrite IH.
Qed.

Lemma group_courses_spec available :
  group_courses available
  = (λ n, (n, filter (λ c, name c = n) available)) <$> first_seen (name <$> available).
Proof.
  unfold group_courses.
  rewrite <-(foldl_fmap (λ d kv, dict_append kv.1 kv.2 d) [] available
               (λ c, (name c, c))).
  fold (dict_extend [] ((λ c, (name c, c)) <$> available)).
  rewrite dict_extend_nil.
  assert (((λ c, (name c, c)) <$> available).*1 = name <$> available) as ->
    by by rewrite <-list_fmap_compose.
  apply list_fmap_ext. intros _ n _. by rewrite values_of_name.
Qed.

Lemma grouped_courses_spec available :
  grouped_courses available
  = (λ n, (n, sorted_by group_key (filter (λ c, name c = n) available)))
      <$> first_seen (name <$> available).
Proof.
  unfold grouped_courses. rewrite group_courses_spec.
  apply (dict_map_values_tabulate (sorted_by group_key)).
Qed.

(** The course names are the names of the available sections in the order
    of their first occurrence. *)
Lemma course_names_spec available :
  course_names available = first_seen (name <$> available).
Proof.
  unfold course_names. rewrite grouped_courses_spec. apply dict_keys_tabulate.
Qed.

(** Every group holds the available sections of its name, must-select
    sections first and then by descending priority. *)
Lemma course_options_spec available :
  course_options available
  = (λ n, sorted_by group_key (filter (λ c, name c = n) available))
      <$> course_names available.
Proof.
  unfold course_options. apply list_fmap_ext. intros i n Hn%list_elem_of_lookup_2.
  unfold dict_at. rewrite grouped_courses_spec, dict_get_tabulate.
  rewrite course_names_spec in Hn. by rewrite decide_True.
Qed.

Lemma NoDup_course_names available : NoDup (course_names available).
Proof. rewrite course_names_spec. apply NoDup_first_seen. Qed.

Lemma elem_of_course_names n available :
  n ∈ course_names available ↔ n ∈ name <$> available.
Proof. rewrite course_names_spec. apply elem_of_first_seen. Qed.

Lemma length_course_options available :
  length (course_options available) = length (grouped_courses available).
Proof.
  unfold course_options, course_names, dict_keys. by rewrite !length_fmap.
Qed.

(** A tuple of the product takes its sections from the available ones, one
    for each course name and in the order of the course names. *)
Lemma product_combo_names available combo :
  combo ∈ product (course_options available) →
  name <$> combo = course_names available ∧ ∀ c, c ∈ combo → c ∈ available.
Proof.
  rewrite elem_of_product, course_options_spec.
  generalize (course_names available) as names. intros names. revert combo.
  induction names as [|n names IH]; intros combo; csimpl.
  - intros ->%Forall2_nil_inv_r. split; [done|]. by intros c ?%elem_of_nil.
  - intros (c & combo' & Hc & Hcombo & ->)%Forall2_cons_inv_r.
    apply elem_of_sorted_by, list_elem_of_filter in Hc as [Hn Hc].
    destruct (IH _ Hcombo) as [Hnames Hin]. csimpl. split; [by f_equal|].
    intros c' [->|?]%elem_of_cons; auto.
Qed.

Lemma product_size_course_options_pos available :
  (0 < product_size (course_options available))%nat.
Proof.
  rewrite course_options_spec.
  assert (∀ n, n ∈ course_names available → n ∈ name <$> available) as Hsub.
  { intros n. by rewrite elem_of_course_names. }
  revert Hsub. generalize (course_names available) as names.
  induction names as [|n names IH]; intros Hsub; csimpl; [lia|].
  assert (0 < length (sorted_by group_key (filter (λ c, name c = n) available)))%nat.
  { rewrite length_sorted_by.
    pose proof (Hsub n ltac:(left)) as (c & -> & Hc)%list_elem_of_fmap.
    assert (c ∈ filter (λ c', name c' = name c) available) as Hin
      by by rewrite list_elem_of_filter.
    destruct (filter _ available); [by apply elem_of_nil in Hin|simpl; lia]. }
  assert (0 < product_size
     ((λ n, sorted_by group_key (filter (λ c, name c = n) available)) <$> names))%nat.
  { apply IH. intros n' ?. apply Hsub. by right. }
  nia.
Qed.

Lemma missing_must_select_None must available :
  missing_must_select must available = None ↔ must_select_available must available.
Proof.
  unfold missing_must_select, must_select_available. split.
  - intros Hfind n Hn.
    pose proof (find_none _ _ Hfind n) as Hnone. simpl in Hnone.
    rewrite <-list_elem_of_In, elem_of_elements in Hnone.
    apply negb_false_iff, any_named_true, list_elem_of_fmap in Hnone; [|done].
    destruct Hnone as (c & -> & Hc). eauto.
  - intros Hav. destruct (find _ _) as [n|] eqn:Hfind; [|done].
    apply find_some in Hfind as [Hn Hneg]. exfalso.
    rewrite <-list_elem_of_In, elem_of_elements in Hn.
    destruct (Hav n Hn) as (c & Hc & <-).
    apply negb_true_iff in Hneg.
    rewrite (proj2 (any_named_true (name c) available)) in Hneg; [done|].
    by apply list_elem_of_fmap_2.
Qed.

Lemma missing_must_select_Some must available n :
  missing_must_select must available = Some n →
  n ∈ must ∧ ∀ c, c ∈ available → name c ≠ n.
Proof.
  intros [Hn Hneg]%find_some.
  rewrite <-list_elem_of_In, elem_of_elements in Hn. split; [done|].
  intros c Hc Hname. apply negb_true_iff in Hneg.
  rewrite (proj2 (any_named_true n available)) in Hneg; [done|].
  rewrite <-Hname. by apply list_elem_of_fmap_2.
Qed.

Lemma elem_of_must_select_names n required :
  n ∈ must_select_names required ↔ ∃ c, c ∈ required ∧ must_select c = true ∧ name c = n.
Proof.
  unfold must_select_names. rewrite elem_of_list_to_set, list_elem_of_fmap.
  setoid_rewrite list_elem_of_filter. naive_solver.
Qed.

(** Under the check of lines 65-68 the test of line 93 holds for every tuple
    of the product. *)
Lemma has_all_must_select_product must available combo :
  must_select_available must available →
  combo ∈ product (course_options available) →
  has_all_must_select must combo = true.
Proof.
  intros Hav [Hnames _]%product_combo_names.
  unfold has_all_must_select. apply forallb_forall. intros n Hn.
  rewrite <-list_elem_of_In, elem_of_elements in Hn.
  apply any_named_true. rewrite Hnames, elem_of_course_names.
  destruct (Hav n Hn) as (c & Hc & <-). by apply list_elem_of_fmap_2.
Qed.
End grouping.

(** ** Conflicts of one tuple *)

Section conflicts.
Implicit Types (c : Course) (combo : list Course) (k : string * Z)
  (m : dict (string * Z) (list Course)).

Lemma sum_Z_app l1 l2 : sum_Z (l1 ++ l2) = sum_Z l1 + sum_Z l2.
Proof. induction l1 as [|x l1 IH]; simpl; lia. Qed.

Lemma sum_Z_perm l1 l2 : l1 ≡ₚ l2 → sum_Z l1 = sum_Z l2.
Proof. induction 1; simpl; lia. Qed.

Lemma sum_Z_zero {A} (f : A → Z) (l : list A) :
  (∀ x, x ∈ l → f x = 0) → sum_Z (f <$> l) = 0.
Proof.
  induction l as [|x l IH]; intros Hf; csimpl; [done|].
  rewrite Hf by left. rewrite IH; [done|]. intros y ?. apply Hf. by right.
Qed.

(** A sum over distinct keys can be taken over any larger set of distinct
    keys on which the additional terms vanish. *)
Lemma sum_Z_superset {A} `{EqDecision A} (f : A → Z) (ks ks' : list A) :
  NoDup ks → NoDup ks' → (∀ x, x ∈ ks → x ∈ ks') →
  (∀ x, x ∈ ks' → x ∉ ks → f x = 0) →
  sum_Z (f <$> ks') = sum_Z (f <$> ks).
Proof.
  intros Hks Hks' Hsub Hzero.
  rewrite (sum_Z_perm _ (f <$> (filter (λ x, x ∈ ks) ks' ++ filter (λ x, ¬ x ∈ ks) ks'))).
  - rewrite fmap_app, sum_Z_app, (sum_Z_zero f (filter (λ x, ¬ x ∈ ks) ks')).
    + rewrite Z.add_0_r. apply sum_Z_perm, fmap_Permutation.
      apply NoDup_Permutation; [by apply NoDup_filter|done|].
      intros x. rewrite list_elem_of_filter. naive_solver.
    + intros x [Hx Hin]%list_elem_of_filter. by apply Hzero.
  - apply fmap_Permutation. symmetry. apply filter_app_complement.
Qed.

Lemma time_slot_map_spec combo :
  time_slot_map combo = dict_extend [] (slot_entries combo).
Proof.
  unfold time_slot_map. generalize (@nil (string * Z * list Course)) as d.
  induction combo as [|c combo IH]; intros d; [done|].
  unfold slot_entries in *. csimpl. rewrite dict_extend_app, IH. f_equal.
  unfold dict_extend. by rewrite foldl_fmap.
Qed.

Lemma slot_entries_keys combo : (slot_entries combo).*1 = combo ≫= time_slots.
Proof.
  unfold slot_entries. induction combo as [|c combo IH]; csimpl; [done|].
  rewrite fmap_app, IH, <-list_fmap_compose. f_equal. apply list_fmap_id.
Qed.

Lemma length_values_of_slot_entries k combo :
  length (values_of k (slot_entries combo)) = occupants k combo.
Proof.
  unfold slot_entries, values_of, occupants.
  induction combo as [|c combo IH]; csimpl; [done|].
  rewrite filter_app, fmap_app, length_app, IH. f_equal.
  rewrite length_fmap. clear IH.
  induction (time_slots c) as [|ts tss IH]; csimpl; [done|].
  rewrite !filter_cons; simpl. destruct (decide (ts = k)); simpl; by rewrite IH.
Qed.

(** The time-slot map has one key for every occupied slot and holds for it
    one entry for every time a section lists that slot. *)
Lemma time_slot_map_tabulate combo :
  time_slot_map combo
  = (λ k, (k, values_of k (slot_entries combo))) <$> slot_keys combo.
Proof.
  by rewrite time_slot_map_spec, dict_extend_nil, slot_entries_keys.
Qed.

Lemma occupants_zero k combo : k ∉ combo ≫= time_slots → occupants k combo = 0%nat.
Proof.
  unfold occupants. induction combo as [|c combo IH]; csimpl; [done|].
  rewrite not_elem_of_app. intros [Hc Hcombo]. rewrite IH by done.
  rewrite (proj2 (length_zero_iff_nil _)); [done|].
  destruct (filter _ _) as [|ts l] eqn:Hf; [done|].
  assert (ts ∈ filter (λ ts, ts = k) (time_slots c)) as Hin by (rewrite Hf; left).
  apply list_elem_of_filter in Hin as [-> ?]. done.
Qed.

(** When no section lists a slot twice, the occupants of a slot are the
    sections that meet in it. *)
Lemma occupants_NoDup k combo :
  (∀ c, c ∈ combo → NoDup (time_slots c)) →
  occupants k combo = length (filter (λ c, k ∈ time_slots c) combo).
Proof.
  unfold occupants. induction combo as [|c combo IH]; intros Hnd; csimpl; [done|].
  rewrite IH by (intros c' ?; apply Hnd; by right).
  assert (NoDup (time_slots c)) as Hc by (apply Hnd; left).
  rewrite filter_cons. clear IH Hnd.
  assert (length (filter (λ ts, ts = k) (time_slots c))
          = if decide (k ∈ time_slots c) then 1 else 0)%nat as ->;
    [|by destruct (decide _)].
  induction Hc as [|ts tss Hts Htss IH]; [done|].
  rewrite filter_cons. destruct (decide (ts = k)) as [->|Hne]; simpl; rewrite IH.
  - rewrite (decide_True (P:=k ∈ k :: tss)) by left. by rewrite decide_False.
  - destruct (decide (k ∈ tss)) as [Hin|Hin].
    + by rewrite decide_True by by right.
    + by rewrite decide_False by (rewrite elem_of_cons; naive_solver).
Qed.

Lemma scan_conflicts_spec m : scan_conflicts m = (listed m, counted m).
Proof.
  unfold scan_conflicts.
  enough (∀ acc, foldl
            (λ acc kv, if bool_decide (1 < length kv.2)%nat
                       then (acc.1 ++ [(kv.1.1, kv.1.2, kv.2)],
                             acc.2 + (Z.of_nat (length kv.2) - 1))
                       else acc) acc m
          = (acc.1 ++ listed m, acc.2 + counted m)) as Hacc by apply Hacc.
  unfold listed, counted. induction m as [|kv m IH]; intros [cs n]; csimpl.
  - by rewrite app_nil_r, Z.add_0_r.
  - rewrite IH, filter_cons. case_bool_decide.
    + rewrite decide_True by done. csimpl. f_equal; [by rewrite <-app_assoc|lia].
    + rewrite decide_False by done. simpl. f_equal. lia.
Qed.

Lemma counted_nonneg m : 0 ≤ counted m.
Proof. unfold counted. induction m as [|kv m IH]; csimpl; lia. Qed.

Lemma counted_zero_iff m : counted m = 0 ↔ listed m = [].
Proof.
  unfold listed. induction m as [|kv m IH]; [done|].
  pose proof (counted_nonneg m) as Hm. unfold counted in *.
  rewrite filter_cons. destruct (decide _) as [Hlen|Hlen]; csimpl.
  - split; [lia|done].
  - rewrite <-IH. lia.
Qed.

Lemma counted_time_slot_map combo :
  counted (time_slot_map combo)
  = sum_Z ((λ k, Z.max 0 (Z.of_nat (occupants k combo) - 1)) <$> slot_keys combo).
Proof.
  unfold counted. rewrite time_slot_map_tabulate, <-list_fmap_compose.
  f_equal. apply list_fmap_ext. intros _ k _; simpl.
  by rewrite length_values_of_slot_entries.
Qed.

Lemma evaluate_combo (t : list Course) : combo (evaluate t) = t.
Proof. unfold evaluate. by destruct (scan_conflicts _). Qed.

Lemma evaluate_conflict_count combo :
  conflict_count (evaluate combo) = counted (time_slot_map combo).
Proof. unfold evaluate. by rewrite scan_conflicts_spec. Qed.

Lemma evaluate_conflict_list combo :
  conflict_list (evaluate combo) = listed (time_slot_map combo).
Proof.
  unfold evaluate, conflict_list. rewrite scan_conflicts_spec; simpl.
  case_bool_decide as Hc; simpl; [|done].
  symmetry. by apply counted_zero_iff.
Qed.

Lemma evaluate_totals combo :
  total_priority (evaluate combo) = sum_Z (priority <$> combo)
  ∧ total_credits (evaluate combo) = sum_Z (credits <$> combo).
Proof. unfold evaluate. by destruct (scan_conflicts _). Qed.
End conflicts.

(** ** The enumeration loop and the final ordering *)

Section enumeration.
Implicit Types (must : gset string) (S : list Schedule)
  (schedules : dict Z (list Schedule)).

(** When line 93 never rejects, the loop takes the tuples in order until the
    counter reaches the cap, and warns exactly when a tuple is left over. *)
Lemma enumerate_spec must max_schedules combos schedules (count : nat) :
  (∀ t, t ∈ combos → has_all_must_select must t = true) →
  enumerate must max_schedules combos schedules count
  = (dict_extend schedules
       ((λ s, (conflict_count s, s)) <$>
          (evaluate <$> take (Z.to_nat (max_schedules - Z.of_nat count)) combos)),
     if decide (Z.to_nat (max_schedules - Z.of_nat count) < length combos)%nat
     then [BudgetReached max_schedules] else []).
Proof.
  revert schedules count.
  induction combos as [|t combos IH]; intros schedules count Hall.
  - simpl. by rewrite take_nil.
  - cbn [enumerate length]. case_bool_decide as Hcap.
    + replace (Z.to_nat (max_schedules - Z.of_nat count)) with 0%nat by lia.
      by rewrite decide_True by lia.
    + rewrite Hall by left. simpl.
      rewrite IH by (intros t' ?; apply Hall; by right).
      replace (Z.to_nat (max_schedules - Z.of_nat count))
        with (Datatypes.S (Z.to_nat (max_schedules - Z.of_nat (Datatypes.S count)))) by lia.
      f_equal. destruct (decide _), (decide _); try done; lia.
Qed.

Lemma filter_bind {A B} (P : B → Prop) `{∀ x, Decision (P x)} (f : A → list B) l :
  filter P (l ≫= f) = l ≫= λ x, filter P (f x).
Proof.
  induction l as [|x l IH]; csimpl; [done|]. by rewrite filter_app, IH.
Qed.

Lemma filter_none {A} (P : A → Prop) `{∀ x, Decision (P x)} (l : list A) :
  (∀ x, x ∈ l → ¬ P x) → filter P l = [].
Proof.
  induction l as [|x l IH]; intros Hl; [done|].
  rewrite filter_cons_False by (apply Hl; left).
  apply IH. intros y ?. apply Hl. by right.
Qed.

Lemma bind_single {A B} `{EqDecision A} (c : A) (X : list B) (ks : list A) :
  NoDup ks →
  (ks ≫= λ k, if decide (k = c) then X else []) = if decide (c ∈ ks) then X else [].
Proof.
  induction 1 as [|k ks Hk Hks IH]; csimpl; [done|].
  rewrite IH. destruct (decide (k = c)) as [->|Hne].
  - rewrite (decide_True (P:=c ∈ c :: ks)) by left.
    rewrite decide_False by done. apply app_nil_r.
  - destruct (decide (c ∈ ks)) as [Hin|Hin].
    + by rewrite decide_True by by right.
    + by rewrite decide_False by (rewrite elem_of_cons; naive_solver).
Qed.

Lemma StronglySorted_weaken {A} (R R' : relation A) (l : list A) :
  (∀ a b, a ∈ l → b ∈ l → R a b → R' a b) →
  StronglySorted R l → StronglySorted R' l.
Proof.
  intros HR Hl. induction Hl as [|x l Hl IH Hx]; constructor.
  - apply IH. intros a b ??. apply HR; by right.
  - rewrite Forall_forall in *. intros y Hy. apply HR; [left|by right|by apply Hx].
Qed.

(** The sorted groups, one after the other in the order of their keys. *)
Lemma flatten_schedules_spec S :
  flatten_schedules (dict_extend [] ((λ s, (conflict_count s, s)) <$> S))
  = k ← sorted_by id (first_seen (conflict_count <$> S));
    sorted_by generated_key (filter (λ s, conflict_count s = k) S).
Proof.
  unfold flatten_schedules. rewrite dict_extend_nil.
  assert (((λ s, (conflict_count s, s)) <$> S).*1 = conflict_count <$> S) as ->
    by by rewrite <-list_fmap_compose.
  rewrite dict_keys_tabulate, (dict_map_values_tabulate (sorted_by generated_key)).
  apply Forall_bind_ext, Forall_forall. intros k Hk.
  unfold dict_at. rewrite dict_get_tabulate.
  rewrite elem_of_sorted_by in Hk. rewrite decide_True by done. simpl.
  f_equal. unfold values_of. clear Hk.
  induction S as [|s S IH]; csimpl; [done|].
  rewrite !filter_cons; simpl. destruct (decide _); csimpl; by rewrite IH.
Qed.

Lemma filter_schedule_key (c : Z) (pq : Z * Z) S :
  filter (λ s, schedule_key s = (c, pq)) S
  = filter (λ s, generated_key s = pq) (filter (λ s, conflict_count s = c) S).
Proof.
  rewrite list_filter_filter. apply list_filter_iff.
  intros s. unfold schedule_key. naive_solver.
Qed.

(** Grouping by conflict count, sorting every group on priority and credits
    and reading the groups in ascending order of their count is one stable
    sort on the three keys. *)
Theorem flatten_schedules_sorted_by S :
  flatten_schedules (dict_extend [] ((λ s, (conflict_count s, s)) <$> S))
  = sorted_by schedule_key S.
Proof.
  rewrite flatten_schedules_spec. apply (sorted_by_stable schedule_key S).
  - pose proof (sorted_by_strongly_sorted (id : Z → Z)
                  (first_seen (conflict_count <$> S))) as Hks.
    assert (NoDup (sorted_by id (first_seen (conflict_count <$> S)))) as Hnd.
    { rewrite sorted_by_perm. apply NoDup_first_seen. }
    induction Hks as [|k ks Hks IH Hk]; csimpl; [constructor|].
    apply NoDup_cons in Hnd as [Hnk Hnd]. apply StronglySorted_app_2.
    + intros a b [Ha _]%elem_of_sorted_by%list_elem_of_filter
        (k' & [Hb _]%elem_of_sorted_by%list_elem_of_filter & Hk')%list_elem_of_bind.
      rewrite Forall_forall in Hk. specialize (Hk k' Hk').
      unfold key_le, py_le, schedule_key, py_lt, pair_py_lt in *; simpl in *.
      rewrite Ha, Hb. rewrite bool_decide_eq_false_2 by (intros ->; done). done.
    + eapply StronglySorted_weaken; [|apply sorted_by_strongly_sorted].
      intros a b [Ha _]%elem_of_sorted_by%list_elem_of_filter
        [Hb _]%elem_of_sorted_by%list_elem_of_filter Hab.
      unfold key_le, py_le, schedule_key in *.
      unfold py_lt at 1, pair_py_lt at 1; simpl.
      rewrite Ha, Hb. by rewrite bool_decide_eq_true_2.
    + by apply IH.
  - intros [c pq]. rewrite filter_bind.
    rewrite (list_bind_ext _
      (λ k, if decide (k = c) then filter (λ s, schedule_key s = (c, pq)) S else [])
      _ (sorted_by id (first_seen (conflict_count <$> S)))); [|intros k|done].
    + rewrite bind_single by (rewrite sorted_by_perm; apply NoDup_first_seen).
      destruct (decide _) as [Hin|Hin]; [done|]. symmetry. apply filter_none.
      intros s Hs Hkey. apply Hin.
      rewrite elem_of_sorted_by, elem_of_first_seen, list_elem_of_fmap.
      exists s. split; [|done]. unfold schedule_key in Hkey. congruence.
    + rewrite !filter_schedule_key. destruct (decide (k = c)) as [->|Hne].
      * rewrite (filter_all (λ s, conflict_count s = c) (sorted_by _ _)).
        -- apply sorted_by_filter_key.
        -- apply Forall_forall.
           by intros s [? _]%elem_of_sorted_by%list_elem_of_filter.
      * rewrite (filter_none (λ s, conflict_count s = c) (sorted_by _ _)); [done|].
        intros s [? _]%elem_of_sorted_by%list_elem_of_filter. congruence.
Qed.
End enumeration.

(** ** [generate_schedules] as a whole *)

Section generation.
Implicit Types (courses required elective : list Course) (s : Schedule).

(** The check of lines 65-68 fails: nothing is enumerated. *)
Lemma generate_schedules_missing courses required elective max_schedules n :
  missing_must_select (must_select_names required) (available_courses courses) = Some n →
  generate_schedules courses required elective max_schedules = ([], [MissingMustSelect n]).
Proof. intros Hmiss. unfold generate_schedules. by rewrite Hmiss. Qed.

(** The check passes: the result is the stable three-key sort of the first
    [max_schedules] tuples of the product, evaluated. *)
Lemma generate_schedules_passed courses required elective max_schedules :
  let pools := course_options (available_courses courses) in
  missing_must_select (must_select_names required) (available_courses courses) = None →
  generate_schedules courses required elective max_schedules
  = (sorted_by schedule_key (evaluate <$> take (Z.to_nat max_schedules) (product pools)),
     if decide (Z.to_nat max_schedules < product_size pools)%nat
     then [BudgetReached max_schedules] else []).
Proof.
  intros pools Hmiss. unfold generate_schedules. rewrite Hmiss.
  rewrite enumerate_spec.
  - fold pools. rewrite flatten_schedules_sorted_by, length_product.
    by replace (max_schedules - Z.of_nat 0) with max_schedules by lia.
  - intros t Ht. eapply has_all_must_select_product; [|done].
    by apply missing_must_select_None.
Qed.

Lemma generate_schedules_elem courses required elective max_schedules s :
  s ∈ (generate_schedules courses required elective max_schedules).1 →
  missing_must_select (must_select_names required) (available_courses courses) = None
  ∧ ∃ t, t ∈ product (course_options (available_courses courses)) ∧ s = evaluate t.
Proof.
  destruct (missing_must_select (must_select_names required)
              (available_courses courses)) as [n|] eqn:Hmiss.
  - rewrite (generate_schedules_missing _ _ _ _ n) by done. by intros ?%elem_of_nil.
  - rewrite generate_schedules_passed by done. simpl.
    rewrite elem_of_sorted_by, list_elem_of_fmap.
    intros (t & -> & (i & Ht%list_elem_of_lookup_2 & _)%elem_of_take). eauto.
Qed.

Lemma length_filter_NoDup_fmap {A B} `{EqDecision B} (f : A → B) (l : list A) y :
  NoDup (f <$> l) → y ∈ f <$> l → length (filter (λ x, f x = y) l) = 1%nat.
Proof.
  induction l as [|x l IH]; csimpl.
  - by intros _ ?%elem_of_nil.
  - intros [Hx Hl]%NoDup_cons Hy. rewrite filter_cons.
    destruct (decide (f x = y)) as [<-|Hne]; simpl.
    + f_equal. apply length_zero_iff_nil, filter_none.
      intros x' Hx' Heq. apply Hx. rewrite <-Heq. by apply list_elem_of_fmap_2.
    + apply IH; [done|]. apply elem_of_cons in Hy as [?|?]; [congruence|done].
Qed.

Lemma StronglySorted_lookup {A} (R : relation A) (l : list A) (i j : nat) a b :
  StronglySorted R l → (i < j)%nat → l !! i = Some a → l !! j = Some b → R a b.
Proof.
  intros Hl. revert i j. induction Hl as [|x l Hl IH Hx]; intros i j Hij Hi Hj.
  - by rewrite lookup_nil in Hi.
  - destruct j as [|j]; [lia|]. destruct i as [|i]; simpl in *.
    + injection Hi as ->. rewrite Forall_forall in Hx.
      by eapply Hx, list_elem_of_lookup_2.
    + apply (IH i j); [lia|done..].
Qed.

Lemma schedule_key_generated_order (a b : Schedule) :
  key_le schedule_key a b ↔ generated_order a b.
Proof.
  unfold key_le, py_le, generated_order, schedule_key, generated_key.
  cbv [py_lt pair_py_lt Z_py_lt]; simpl.
  repeat case_bool_decide; rewrite ?Z.ltb_ge; lia.
Qed.

Lemma sort_key_conflicts_first (a b : Schedule) :
  key_le (sort_key CONFLICTS_FIRST) a b →
  conflict_count a ≤ conflict_count b
  ∧ (conflict_count a = conflict_count b → total_priority b ≤ total_priority a).
Proof.
  unfold key_le, py_le, sort_key. rewrite bool_decide_eq_true_2 by done.
  cbv [py_lt pair_py_lt Z_py_lt]; simpl.
  case_bool_decide; rewrite ?Z.ltb_ge; lia.
Qed.
End generation.

(** * The claims of the specification *)

(** C1. If some name of [must_select_names] (a name with a must-select
    section among the required sections that were passed in) has no section
    among the sections that are not temporarily excluded, then
    [generate_schedules] returns no candidate and reports a course name that
    is must-select and has no available section; this happens whatever the
    budget is, hence before any tuple is enumerated. *)
Theorem missing_must_select_fails
    (courses required_courses elective_courses : list Course)
    (max_schedules : Z) (c : Course) :
  c ∈ required_courses → must_select c = true →
  name c ∉ name <$> available_courses courses →
  ∃ n, n ∈ must_select_names required_courses
       ∧ (n ∉ name <$> available_courses courses)
       ∧ generate_schedules courses required_courses elective_courses max_schedules
         = ([], [MissingMustSelect n]).
Proof.
  intros Hc Hms Hname.
  destruct (missing_must_select (must_select_names required_courses)
              (available_courses courses)) as [n|] eqn:Hmiss.
  - exists n. apply missing_must_select_Some in Hmiss as Hn. destruct Hn as [Hn Hav].
    split_and!; [done| |by apply generate_schedules_missing].
    intros (c' & -> & Hc')%list_elem_of_fmap. by apply (Hav c').
  - apply missing_must_select_None in Hmiss. exfalso.
    destruct (Hmiss (name c)) as (c' & Hc' & Hn).
    + apply elem_of_must_select_names. eauto.
    + apply Hname. rewrite <-Hn. by apply list_elem_of_fmap_2.
Qed.

Lemma missing_must_select_fails_witness :
  cM ∈ required_of pool_missing ∧ must_select cM = true
  ∧ (name cM ∉ name <$> available_courses pool_missing)
  ∧ ∃ n, n ∈ must_select_names (required_of pool_missing)
         ∧ (n ∉ name <$> available_courses pool_missing)
         ∧ generate_schedules pool_missing (required_of pool_missing)
             (elective_of pool_missing) 1000
           = ([], [MissingMustSelect n]).
Proof.
  assert (cM ∈ required_of pool_missing) as H1 by (vm_compute; set_solver).
  assert (must_select cM = true) as H2 by reflexivity.
  assert (name cM ∉ name <$> available_courses pool_missing) as H3
    by (vm_compute; set_solver).
  exact (conj H1 (conj H2 (conj H3
    (missing_must_select_fails pool_missing (required_of pool_missing)
       (elective_of pool_missing) 1000 cM H1 H2 H3)))).
Defined.

(** C2. When the must-select check has passed, every candidate that
    [generate_schedules] returns holds exactly one section for every course
    name of the filtered pool, in the order of the course groups, so that its
    length is the number of course groups; and the test "all must-select
    names present" of line 93 is true for every tuple of the product. *)
Theorem one_section_per_name
    (courses required_courses elective_courses : list Course) (max_schedules : Z) :
  let available := available_courses courses in
  let must := must_select_names required_courses in
  missing_must_select must available = None →
  (∀ s, s ∈ (generate_schedules courses required_courses elective_courses
               max_schedules).1 →
        name <$> combo s = course_names available
        ∧ length (combo s) = length (grouped_courses available)
        ∧ (∀ c, c ∈ combo s → c ∈ available)
        ∧ (∀ n, n ∈ name <$> available →
                length (filter (λ c, name c = n) (combo s)) = 1%nat))
  ∧ NoDup (course_names available)
  ∧ (∀ n, n ∈ course_names available ↔ n ∈ name <$> available)
  ∧ (∀ t, t ∈ product (course_options available) → has_all_must_select must t = true).
Proof.
  intros available must Hmiss. split_and!.
  - intros s (_ & t & Ht & ->)%generate_schedules_elem.
    rewrite evaluate_combo. fold available in Ht.
    apply product_combo_names in Ht as [Hnames Hin]. split_and!; [done| |done|].
    + rewrite <-(length_fmap name), Hnames.
      unfold course_names, dict_keys. apply length_fmap.
    + intros n Hn. apply length_filter_NoDup_fmap.
      * rewrite Hnames. apply NoDup_course_names.
      * by rewrite Hnames, elem_of_course_names.
  - apply NoDup_course_names.
  - intros n. apply elem_of_course_names.
  - intros t Ht. eapply has_all_must_select_product; [|done].
    by apply missing_must_select_None.
Qed.

Lemma one_section_per_name_witness :
  missing_must_select (must_select_names (required_of pool_xy))
    (available_courses pool_xy) = None
  ∧ (∀ s, s ∈ (generate_schedules pool_xy (required_of pool_xy)
                 (elective_of pool_xy) 1000).1 →
          name <$> combo s = course_names (available_courses pool_xy)
          ∧ length (combo s) = length (grouped_courses (available_courses pool_xy)))
  ∧ (∀ t, t ∈ product (course_options (available_courses pool_xy)) →
          has_all_must_select (must_select_names (required_of pool_xy)) t = true).
Proof.
  assert (missing_must_select (must_select_names (required_of pool_xy))
            (available_courses pool_xy) = None) as Hmiss by (vm_compute; reflexivity).
  destruct (one_section_per_name pool_xy (required_of pool_xy) (elective_of pool_xy)
              1000 Hmiss) as (Hres & _ & _ & Hall).
  split_and!; [done| |done].
  intros s Hs. destruct (Hres s Hs) as (? & ? & _). done.
Defined.

(** X29. For every candidate that [generate_schedules] returns, the time-slot
    map has one key for every slot that a section of the candidate lists and
    holds under it one occupant for every such listing; [conflict_count] is
    the sum over these keys of the occupants minus one, taken over the keys
    with two occupants or more, which is also the sum of
    [max 0 (occupants - 1)] over any set of slots that contains them;
    [conflict_count] is zero exactly when the candidate shows no conflict; and
    when no section of the candidate lists a slot twice, the occupants of a
    slot are the sections that meet in it, so that [conflict_count] is the
    sum of the number of these sections minus one over the slots in which two
    sections or more meet. *)
Theorem conflict_count_formula
    (courses required_courses elective_courses : list Course) (max_schedules : Z)
    (s : Schedule) :
  s ∈ (generate_schedules courses required_courses elective_courses max_schedules).1 →
  let m := time_slot_map (combo s) in
  let surplus := λ k, Z.max 0 (Z.of_nat (occupants k (combo s)) - 1) in
  dict_keys m = slot_keys (combo s)
  ∧ (∀ k, k ∈ dict_keys m → length (dict_at k m) = occupants k (combo s))
  ∧ conflict_count s
    = sum_Z ((λ k, Z.of_nat (length (dict_at k m)) - 1)
               <$> filter (λ k, 2 ≤ length (dict_at k m))%nat (dict_keys m))
  ∧ conflict_count s = sum_Z (surplus <$> dict_keys m)
  ∧ (∀ ks, NoDup ks → (∀ k, k ∈ dict_keys m → k ∈ ks) →
           conflict_count s = sum_Z (surplus <$> ks))
  ∧ (conflict_count s = 0 ↔ conflict_list s = [])
  ∧ (conflict_count s = 0 ↔ conflicts s = None)
  ∧ ((∀ c, c ∈ combo s → NoDup (time_slots c)) →
       (∀ k, occupants k (combo s) = length (occupying_sections k (combo s)))
       ∧ conflict_count s
         = sum_Z ((λ k, Z.of_nat (length (occupying_sections k (combo s))) - 1)
                    <$> filter (λ k, 2 ≤ length (occupying_sections k (combo s)))%nat
                          (dict_keys m))).
Proof.
  intros (_ & t & _ & ->)%generate_schedules_elem. rewrite evaluate_combo.
  intros m surplus.
  assert (dict_keys m = slot_keys t) as Hkeys.
  { unfold m. rewrite time_slot_map_tabulate. apply dict_keys_tabulate. }
  assert (∀ k, k ∈ slot_keys t → length (dict_at k m) = occupants k t) as Hocc.
  { intros k Hk. unfold m, dict_at.
    rewrite time_slot_map_tabulate, dict_get_tabulate, decide_True by done.
    apply length_values_of_slot_entries. }
  assert (conflict_count (evaluate t) = sum_Z (surplus <$> slot_keys t)) as Hsum.
  { rewrite evaluate_conflict_count. apply counted_time_slot_map. }
  rewrite Hkeys. split_and!; [done|done| |done| | | |].
  - rewrite Hsum. clear Hsum Hkeys.
    induction (slot_keys t) as [|k ks IH]; [done|].
    rewrite filter_cons. csimpl.
    rewrite IH by (intros k' ?; apply Hocc; by right).
    unfold surplus at 1. rewrite <-(Hocc k) by left.
    destruct (decide _); csimpl; lia.
  - intros ks Hks Hsub. rewrite Hsum. symmetry.
    apply sum_Z_superset; [apply NoDup_first_seen|done..|].
    intros k _ Hk. unfold surplus, slot_keys in *.
    rewrite elem_of_first_seen in Hk. rewrite occupants_zero by done. lia.
  - rewrite evaluate_conflict_count, evaluate_conflict_list.
    apply counted_zero_iff.
  - unfold evaluate. rewrite scan_conflicts_spec; simpl.
    case_bool_decide; naive_solver.
  - intros Hnd.
    assert (∀ k, occupants k t = length (occupying_sections k t)) as Hsec
      by (intros k; by apply occupants_NoDup).
    split; [done|]. rewrite Hsum. clear Hsum Hkeys Hocc.
    induction (slot_keys t) as [|k ks IH]; [done|].
    rewrite filter_cons. csimpl. rewrite IH.
    unfold surplus at 1. rewrite (Hsec k).
    destruct (decide _); csimpl; lia.
Qed.

Lemma conflict_count_formula_witness :
  evaluate pool_abc
    ∈ (generate_schedules pool_abc (required_of pool_abc) (elective_of pool_abc) 1000).1
  ∧ conflict_count (evaluate pool_abc) = 1
  ∧ conflict_count (evaluate pool_abc)
    = sum_Z ((λ k, Z.max 0 (Z.of_nat (occupants k pool_abc) - 1))
               <$> [("Mon", 1); ("Tue", 2)]).
Proof.
  assert (evaluate pool_abc
            ∈ (generate_schedules pool_abc (required_of pool_abc)
                 (elective_of pool_abc) 1000).1) as Hin
    by (vm_compute; apply list_elem_of_here).
  destruct (conflict_count_formula _ _ _ _ _ Hin) as (_ & _ & _ & Hsum & _).
  split_and!; [done|by vm_compute|].
  rewrite Hsum. by vm_compute.
Defined.

(** C3, on the code as it is: the time-slot map holds a section once for
    every listing of a slot. The candidate made of the single section [cDup],
    which lists Monday, period 1, twice, is returned with the map entry
    "Monday, period 1: D, D" and a conflict count of one, while one section
    meets in that slot, no slot has two occupying sections, and the sum of
    the claim is zero. *)
Theorem duplicate_listing_conflict_count :
  evaluate [cDup]
    ∈ (generate_schedules [cDup] (required_of [cDup]) (elective_of [cDup]) 1000).1
  ∧ time_slot_map (combo (evaluate [cDup])) = [(("Mon", 1), [cDup; cDup])]
  ∧ occupying_sections ("Mon", 1) (combo (evaluate [cDup])) = [cDup]
  ∧ conflict_count (evaluate [cDup]) = 1
  ∧ sum_Z ((λ k, Z.of_nat (length (occupying_sections k (combo (evaluate [cDup])))) - 1)
             <$> filter (λ k, 2 ≤ length (occupying_sections k
                                             (combo (evaluate [cDup]))))%nat
                   (dict_keys (time_slot_map (combo (evaluate [cDup]))))) = 0
  ∧ conflicts (evaluate [cDup]) = Some [("Mon", 1, [cDup; cDup])].
Proof. split_and!; [vm_compute; apply list_elem_of_here|by vm_compute..]. Qed.

(** C4. [generate_schedules] returns at most [max_schedules] candidates (none
    for a cap of zero or less). Once the counter has reached the cap, the
    next tuple of the product ends the loop with a warning, whatever follows
    it: the warning is given exactly when the check has passed and the
    product holds more than [max_schedules] tuples, and the candidates are
    then made of the first [max_schedules] tuples alone. *)
Theorem budget_bound
    (courses required_courses elective_courses : list Course) (max_schedules : Z) :
  let outcome := generate_schedules courses required_courses elective_courses
                   max_schedules in
  let must := must_select_names required_courses in
  let pools := course_options (available_courses courses) in
  Z.of_nat (length outcome.1) ≤ Z.max 0 max_schedules
  ∧ (generate_schedules courses required_courses elective_courses 0).1 = []
  ∧ (∀ t rest schedules (count : nat), max_schedules ≤ Z.of_nat count →
        enumerate must max_schedules (t :: rest) schedules count
        = (schedules, [BudgetReached max_schedules]))
  ∧ (BudgetReached max_schedules ∈ outcome.2 ↔
       missing_must_select must (available_courses courses) = None
       ∧ (Z.to_nat max_schedules < product_size pools)%nat)
  ∧ (missing_must_select must (available_courses courses) = None →
       outcome.1 = sorted_by schedule_key
                     (evaluate <$> take (Z.to_nat max_schedules) (product pools))
       ∧ length outcome.1 = (Z.to_nat max_schedules `min` product_size pools)%nat).
Proof.
  intros outcome must pools.
  assert (missing_must_select must (available_courses courses) = None →
          outcome.1 = sorted_by schedule_key
                        (evaluate <$> take (Z.to_nat max_schedules) (product pools))
          ∧ length outcome.1 = (Z.to_nat max_schedules `min` product_size pools)%nat)
    as Hpassed.
  { intros Hmiss. unfold outcome. rewrite generate_schedules_passed by done.
    split; [done|]. simpl.
    by rewrite length_sorted_by, length_fmap, length_take, length_product. }
  split_and!; [| | | |done].
  - destruct (missing_must_select must (available_courses courses)) as [n|] eqn:Hmiss.
    + unfold outcome. rewrite (generate_schedules_missing _ _ _ _ n) by done.
      simpl. lia.
    + destruct Hpassed as [_ ->]; [done|]. lia.
  - destruct (missing_must_select must (available_courses courses)) as [n|] eqn:Hmiss.
    + by rewrite (generate_schedules_missing _ _ _ _ n).
    + by rewrite generate_schedules_passed.
  - intros t rest schedules count Hcap. simpl. by rewrite bool_decide_eq_true_2.
  - destruct (missing_must_select must (available_courses courses)) as [n|] eqn:Hmiss.
    + unfold outcome. rewrite (generate_schedules_missing _ _ _ _ n) by done. simpl.
      rewrite list_elem_of_singleton. naive_solver.
    + unfold outcome. rewrite generate_schedules_passed by done. simpl. fold pools.
      destruct (decide _) as [Hlt|Hge].
      * rewrite list_elem_of_singleton. naive_solver.
      * rewrite elem_of_nil. naive_solver.
Qed.

Lemma budget_bound_witness :
  missing_must_select (must_select_names (required_of pool_xy))
    (available_courses pool_xy) = None
  ∧ BudgetReached 1
      ∈ (generate_schedules pool_xy (required_of pool_xy) (elective_of pool_xy) 1).2
  ∧ length (generate_schedules pool_xy (required_of pool_xy) (elective_of pool_xy) 1).1
    = 1%nat.
Proof.
  assert (missing_must_select (must_select_names (required_of pool_xy))
            (available_courses pool_xy) = None) as Hmiss by (vm_compute; reflexivity).
  destruct (budget_bound pool_xy (required_of pool_xy) (elective_of pool_xy) 1)
    as (_ & _ & _ & Hwarn & Hpassed).
  split_and!; [done| |].
  - apply Hwarn. split; [done|]. vm_compute. lia.
  - destruct (Hpassed Hmiss) as [_ ->]. by vm_compute.
Defined.

(** C4, the claim as it is written fails: with a cap of one, the pool of A, B
    and C, whose product holds one tuple, gives one candidate, as many as the
    cap allows, and no warning; the loop ends because the product is
    exhausted, before line 88 is reached again. *)
Lemma budget_exact_fit_no_warning :
  missing_must_select (must_select_names (required_of pool_abc))
    (available_courses pool_abc) = None
  ∧ product_size (course_options (available_courses pool_abc)) = 1%nat
  ∧ length (generate_schedules pool_abc (required_of pool_abc)
              (elective_of pool_abc) 1).1 = Z.to_nat 1
  ∧ BudgetReached 1
      ∉ (generate_schedules pool_abc (required_of pool_abc) (elective_of pool_abc) 1).2.
Proof.
  split_and!; [by vm_compute..|].
  assert ((generate_schedules pool_abc (required_of pool_abc)
             (elective_of pool_abc) 1).2 = []) as -> by by vm_compute.
  apply not_elem_of_nil.
Qed.

(** C5. The list that [generate_schedules] returns is in the order of the
    three keys: of two results the earlier one has the smaller conflict count,
    or the same conflict count and the larger total priority, or the same of
    both and total credits that are at least as large; this holds for
    neighbours and for any two positions. *)
Theorem generated_order_sorted
    (courses required_courses elective_courses : list Course) (max_schedules : Z) :
  let result := (generate_schedules courses required_courses elective_courses
                   max_schedules).1 in
  Sorted generated_order result ∧ StronglySorted generated_order result.
Proof.
  intros result.
  assert (StronglySorted generated_order result) as Hsorted.
  { unfold result.
    destruct (missing_must_select (must_select_names required_courses)
                (available_courses courses)) as [n|] eqn:Hmiss.
    - rewrite (generate_schedules_missing _ _ _ _ n) by done. constructor.
    - rewrite generate_schedules_passed by done. simpl.
      eapply StronglySorted_weaken; [|apply sorted_by_strongly_sorted].
      intros a b _ _. apply schedule_key_generated_order. }
  split; [by apply StronglySorted_Sorted|done].
Qed.

(** C6, on the code as it is: the sections' time slots are not deduplicated.
    A candidate made of the single section [cDup], which lists Monday,
    period 1, twice, is returned with a conflict count of one and with the
    conflict "Monday, period 1: D, D", although one section only meets in
    that slot. *)
Theorem duplicate_slot_self_conflict :
  generate_schedules [cDup] (required_of [cDup]) (elective_of [cDup]) 1000
  = ([{| combo := [cDup]; total_priority := 5; total_credits := 3;
         req_credits := 3; ele_credits := 0;
         conflicts := Some [("Mon", 1, [cDup; cDup])];
         conflict_count := 1 |}], [])
  ∧ length (filter (λ c, ("Mon", 1) ∈ time_slots c) [cDup]) = 1%nat.
Proof. split; by vm_compute. Qed.

(** C7. After ranking with the policy "conflicts first", a candidate at an
    earlier position never has a larger conflict count than one at a later
    position, and with equal conflict counts its total priority is at least
    as large; ranking only reorders the candidates. *)
Theorem rank_conflicts_first_monotone (l : list Schedule) (i j : nat) (a b : Schedule) :
  (i < j)%nat →
  rank CONFLICTS_FIRST l !! i = Some a →
  rank CONFLICTS_FIRST l !! j = Some b →
  conflict_count a ≤ conflict_count b
  ∧ (conflict_count a = conflict_count b → total_priority b ≤ total_priority a)
  ∧ rank CONFLICTS_FIRST l ≡ₚ l.
Proof.
  intros Hij Ha Hb.
  pose proof (StronglySorted_lookup _ _ i j a b
                (sorted_by_strongly_sorted (sort_key CONFLICTS_FIRST) l) Hij Ha Hb)
    as Hab.
  apply sort_key_conflicts_first in Hab as [Hcc Htp].
  split_and!; [done..|]. apply sorted_by_perm.
Qed.

Lemma rank_conflicts_first_monotone_witness :
  (1 < 2)%nat
  ∧ rank CONFLICTS_FIRST scored_list !! 1%nat = Some (scored 0 7 4)
  ∧ rank CONFLICTS_FIRST scored_list !! 2%nat = Some (scored 2 12 6)
  ∧ conflict_count (scored 0 7 4) ≤ conflict_count (scored 2 12 6).
Proof.
  assert (1 < 2)%nat as H1 by lia.
  assert (rank CONFLICTS_FIRST scored_list !! 1%nat = Some (scored 0 7 4)) as H2
    by (vm_compute; reflexivity).
  assert (rank CONFLICTS_FIRST scored_list !! 2%nat = Some (scored 2 12 6)) as H3
    by (vm_compute; reflexivity).
  exact (conj H1 (conj H2 (conj H3
    (proj1 (rank_conflicts_first_monotone scored_list 1 2 _ _ H1 H2 H3))))).
Defined.

(** C8. Ranking is idempotent for either policy: ranking a ranked list again
    with the same policy leaves it as it is. *)
Theorem rank_idempotent (sort_option : string) (l : list Schedule) :
  rank sort_option (rank sort_option l) = rank sort_option l.
Proof. apply sorted_by_idemp. Qed.

(** C9. [generate_schedules] does not read [elective_courses], and it reads
    [required_courses] only through the set of must-select names: two calls
    that agree on the pool, the budget and that set return the same result
    and the same messages. *)
Theorem elective_courses_unused
    (courses required1 required2 elective1 elective2 : list Course) (max_schedules : Z) :
  must_select_names required1 = must_select_names required2 →
  generate_schedules courses required1 elective1 max_schedules
  = generate_schedules courses required2 elective2 max_schedules.
Proof. intros Hmust. unfold generate_schedules. by rewrite Hmust. Qed.

Lemma elective_courses_unused_witness :
  must_select_names [cX2; cX1] = must_select_names [cX1]
  ∧ generate_schedules pool_xy [cX2; cX1] [cY] 1000
    = generate_schedules pool_xy [cX1] [] 1000.
Proof.
  assert (must_select_names [cX2; cX1] = must_select_names [cX1]) as Hmust
    by (vm_compute; reflexivity).
  exact (conj Hmust (elective_courses_unused pool_xy _ _ [cY] [] 1000 Hmust)).
Defined.

(** C10. The course groups stand in the order in which their names first
    occur among the sections that are not excluded, each group holding the
    available sections of its name. The tuples of the product are numbered
    with the first group as the most significant digit and the last group as
    the least significant one, so the last group varies fastest. When the
    must-select check passes, the candidates returned are made of exactly the
    first [min max_schedules (size of the product)] tuples in this order. *)
Theorem enumeration_order
    (courses required_courses elective_courses : list Course) (max_schedules : Z) :
  let available := available_courses courses in
  let pools := course_options available in
  missing_must_select (must_select_names required_courses) available = None →
  course_names available = first_seen (name <$> available)
  ∧ (∀ l1 c l2, available = l1 ++ c :: l2 → name c ∉ name <$> l1 →
        course_names available !! length (first_seen (name <$> l1)) = Some (name c))
  ∧ pools = (λ n, sorted_by group_key (filter (λ c, name c = n) available))
              <$> course_names available
  ∧ length (product pools) = product_size pools
  ∧ (∀ i, (i < product_size pools)%nat → product pools !! i = tuple_at pools i)
  ∧ combo <$> (generate_schedules courses required_courses elective_courses
                 max_schedules).1
    ≡ₚ take (Z.to_nat max_schedules `min` product_size pools) (product pools).
Proof.
  intros available pools Hmiss. split_and!.
  - apply course_names_spec.
  - intros l1 c l2 Hav Hc. rewrite course_names_spec, Hav, fmap_app. csimpl.
    by apply first_seen_first_occurrence.
  - apply course_options_spec.
  - apply length_product.
  - intros i Hi. by apply lookup_product.
  - rewrite generate_schedules_passed by done. simpl. fold available pools.
    rewrite sorted_by_perm, <-list_fmap_compose.
    rewrite (list_fmap_ext (combo ∘ evaluate) id (take _ _))
      by (intros _ t _; apply evaluate_combo).
    rewrite list_fmap_id, <-(length_product pools).
    by rewrite <-(take_take _ _ (length (product pools))), firstn_all.
Qed.

Lemma enumeration_order_witness :
  missing_must_select (must_select_names (required_of pool_xy))
    (available_courses pool_xy) = None
  ∧ course_names (available_courses pool_xy) = ["X"; "Y"]
  ∧ product (course_options (available_courses pool_xy)) = [[cX1; cY]; [cX2; cY]]
  ∧ combo <$> (generate_schedules pool_xy (required_of pool_xy)
                 (elective_of pool_xy) 1).1
    ≡ₚ [[cX1; cY]].
Proof.
  assert (missing_must_select (must_select_names (required_of pool_xy))
            (available_courses pool_xy) = None) as Hmiss by (vm_compute; reflexivity).
  destruct (enumeration_order pool_xy (required_of pool_xy) (elective_of pool_xy) 1
              Hmiss) as (Hnames & _ & _ & _ & _ & Hperm).
  split_and!; [done| |by vm_compute|].
  - rewrite Hnames. by vm_compute.
  - rewrite Hperm. by vm_compute.
Defined.

(** ** The end-to-end example of the specification *)

(** Three courses with one section each, two of them meeting on Monday,
    period 1: one candidate, one conflict, total priority 12, total credits 7
    and no message. *)
Example generate_pool_abc :
  generate pool_abc
  = ([{| combo := [cA; cB; cC]; total_priority := 12; total_credits := 7;
         req_credits := 5; ele_credits := 2;
         conflicts := Some [("Mon", 1, [cA; cB])];
         conflict_count := 1 |}], []).
Proof. by vm_compute. Qed.

(** Both sections of X are explored, the must-select one first in its group;
    the returned order is decided by the scores. *)
Example generate_pool_xy :
  combo <$> (generate pool_xy).1 = [[cX1; cY]; [cX2; cY]]
  ∧ total_priority <$> (generate pool_xy).1 = [8; 5].
Proof. by vm_compute. Qed.

(** * Further properties of the code *)

(** ** Helper lemmas *)

Section more_dict_facts.
Context {K V : Type} `{EqDecision K}.
Implicit Types (k : K) (d : dict K (list V)) (L : list (K * V)).

Lemma length_first_seen_le (ks : list K) : (length (first_seen ks) ≤ length ks)%nat.
Proof.
  induction ks as [|x ks IH]; simpl; [done|].
  pose proof (length_filter (λ y, y ≠ x) (first_seen ks)). lia.
Qed.

Lemma length_first_seen_NoDup (ks : list K) :
  length (first_seen ks) = length ks ↔ NoDup ks.
Proof.
  split; [|by intros ->%first_seen_NoDup].
  induction ks as [|x ks IH]; simpl; [constructor|]. intros Hlen.
  pose proof (length_filter (λ y, y ≠ x) (first_seen ks)) as Hf.
  pose proof (length_first_seen_le ks) as Hle.
  constructor; [|apply IH; lia].
  intros Hx%elem_of_first_seen.
  pose proof (length_filter_lt (λ y, y ≠ x) _ x Hx) as Hlt.
  assert (¬ x ≠ x) as Hxx by naive_solver. specialize (Hlt Hxx). lia.
Qed.
End more_dict_facts.

Lemma length_bind_sum {A B} (f : A → list B) (l : list A) :
  length (l ≫= f) = sum_list_with (λ x, length (f x)) l.
Proof. induction l as [|x l IH]; csimpl; [done|]. by rewrite length_app, IH. Qed.

Lemma length_slot_keys (t : list Course) : length (slot_keys t) = distinct_slots t.
Proof.
  unfold slot_keys, distinct_slots.
  rewrite <-(size_list_to_set (C:=gset (string * Z)) (first_seen _))
    by apply NoDup_first_seen.
  f_equal. apply set_eq. intros k.
  by rewrite !elem_of_list_to_set, elem_of_first_seen.
Qed.

Lemma occupants_pos k (t : list Course) : k ∈ slot_keys t → (0 < occupants k t)%nat.
Proof.
  unfold slot_keys, occupants. rewrite elem_of_first_seen.
  induction t as [|c t IH]; csimpl; [by intros ?%elem_of_nil|].
  intros [Hk|Hk]%elem_of_app; [|specialize (IH Hk); lia].
  assert (k ∈ filter (λ ts, ts = k) (time_slots c)) as Hin
    by by rewrite list_elem_of_filter.
  destruct (filter _ (time_slots c)); [by apply elem_of_nil in Hin|simpl; lia].
Qed.

Lemma sum_Z_add {A} (f g : A → Z) (l : list A) :
  sum_Z ((λ x, f x + g x) <$> l) = sum_Z (f <$> l) + sum_Z (g <$> l).
Proof. induction l as [|x l IH]; csimpl; lia. Qed.

Lemma sum_Z_indicator {A} `{EqDecision A} (k : A) (ks : list A) :
  NoDup ks →
  sum_Z ((λ k', if decide (k' = k) then 1 else 0) <$> ks)
  = if decide (k ∈ ks) then 1 else 0.
Proof.
  induction 1 as [|x ks Hx Hks IH]; csimpl; [done|]. rewrite IH.
  destruct (decide (x = k)) as [->|Hne].
  - rewrite (decide_True (P:=k ∈ k :: ks)) by left. by rewrite decide_False.
  - destruct (decide (k ∈ ks)) as [Hin|Hin].
    + by rewrite decide_True by by right.
    + by rewrite decide_False by (rewrite elem_of_cons; naive_solver).
Qed.

(** A dictionary filled by appending holds as many values as were appended. *)
Lemma sum_length_values_of {K V} `{EqDecision K} (L : list (K * V)) :
  sum_Z ((λ k, Z.of_nat (length (values_of k L))) <$> first_seen L.*1)
  = Z.of_nat (length L).
Proof.
  induction L as [|[k v] L IH] using rev_ind; [done|].
  rewrite (fmap_app fst); csimpl. rewrite first_seen_snoc, length_app; simpl.
  rewrite fmap_app, sum_Z_app.
  rewrite (list_fmap_ext _
             (λ k', Z.of_nat (length (values_of k' L))
                    + (if decide (k' = k) then 1 else 0)) (first_seen L.*1)).
  2:{ intros _ k' _. rewrite values_of_snoc, length_app; simpl.
      destruct (decide (k = k')), (decide (k' = k)); simpl; try congruence; lia. }
  rewrite sum_Z_add, IH, sum_Z_indicator by apply NoDup_first_seen.
  rewrite (decide_ext _ _ _ _ (elem_of_first_seen k L.*1)).
  destruct (decide (k ∈ L.*1)) as [Hin|Hin]; csimpl.
  - lia.
  - rewrite values_of_snoc, length_app; simpl.
    rewrite decide_True by done.
    rewrite (proj2 (values_of_nil_iff k L)) by done. simpl. lia.
Qed.

Lemma sum_occupants (t : list Course) :
  sum_Z ((λ k, Z.of_nat (occupants k t)) <$> slot_keys t)
  = Z.of_nat (length (t ≫= time_slots)).
Proof.
  pose proof (sum_length_values_of (slot_entries t)) as Hgen.
  rewrite <-(length_fmap fst (slot_entries t)), slot_entries_keys in Hgen.
  rewrite <-Hgen. f_equal. apply list_fmap_ext. intros _ k _.
  by rewrite length_values_of_slot_entries.
Qed.

Lemma counted_closed_form (t : list Course) :
  counted (time_slot_map t)
  = Z.of_nat (length (t ≫= time_slots)) - Z.of_nat (length (slot_keys t)).
Proof.
  rewrite counted_time_slot_map, <-sum_occupants.
  assert (∀ ks, (∀ k, k ∈ ks → (0 < occupants k t)%nat) →
            sum_Z ((λ k, Z.max 0 (Z.of_nat (occupants k t) - 1)) <$> ks)
            = sum_Z ((λ k, Z.of_nat (occupants k t)) <$> ks) - Z.of_nat (length ks))
    as Hgen.
  { intros ks. induction ks as [|k ks IH]; intros Hpos; csimpl; [done|].
    rewrite IH by (intros k' ?; apply Hpos; by right).
    pose proof (Hpos k ltac:(left)). lia. }
  apply Hgen. intros k. apply occupants_pos.
Qed.

Lemma values_of_slot_entries k (t : list Course) :
  values_of k (slot_entries t) = occupant_list k t.
Proof.
  unfold values_of, slot_entries, occupant_list.
  induction t as [|c t IH]; csimpl; [done|].
  rewrite filter_app, fmap_app, IH. f_equal. clear IH.
  induction (time_slots c) as [|ts tss IH]; csimpl; [done|].
  rewrite !filter_cons; simpl. destruct (decide (ts = k)); csimpl; by rewrite IH.
Qed.

Lemma length_occupant_list k (t : list Course) :
  length (occupant_list k t) = occupants k t.
Proof. by rewrite <-values_of_slot_entries, length_values_of_slot_entries. Qed.

Lemma REQUIRED_ne_ELECTIVE : REQUIRED ≠ ELECTIVE.
Proof. unfold REQUIRED, ELECTIVE. discriminate. Qed.

Lemma product_of_names (available t : list Course) :
  name <$> t = course_names available → (∀ c, c ∈ t → c ∈ available) →
  t ∈ product (course_options available).
Proof.
  rewrite elem_of_product, course_options_spec.
  generalize (course_names available) as names. intros names. revert t.
  induction names as [|n names IH]; intros [|c t] Hnames Hin; csimpl in *;
    try done.
  injection Hnames as Hn Hnames. constructor.
  - rewrite elem_of_sorted_by, list_elem_of_filter. split; [done|]. apply Hin. left.
  - apply IH; [done|]. intros c' ?. apply Hin. by right.
Qed.

Lemma group_key_order (a b : Course) : key_le group_key a b → group_order a b.
Proof.
  unfold key_le, py_le, group_key, group_order.
  cbv [py_lt pair_py_lt Z_py_lt bool_py_lt]; simpl.
  case_bool_decide as Hflag; rewrite ?Z.ltb_ge;
    destruct (must_select a), (must_select b); simpl in *; try done;
    intros ?; split; (done || lia || naive_solver).
Qed.

Lemma sort_key_cases (p q : string) (k : Z * Z) :
  ∃ k', ∀ s, sort_key p s = k ↔ sort_key q s = k'.
Proof.
  unfold sort_key. destruct k as [k1 k2].
  destruct (bool_decide (p = CONFLICTS_FIRST)), (bool_decide (q = CONFLICTS_FIRST)).
  - exists (k1, k2). done.
  - exists (k2, k1). naive_solver.
  - exists (k2, k1). naive_solver.
  - exists (k1, k2). done.
Qed.

(** A stable sort of a list that is in some order [R] orders it by the key
    first and keeps [R] among the elements with equal keys. *)
Lemma sorted_by_refines {A K} `{PyLtLaws K} (key : A → K) (R : relation A) (l : list A) :
  StronglySorted R l →
  StronglySorted (λ a b, py_lt (key a) (key b) = true ∨ (key a = key b ∧ R a b))
    (sorted_by key l).
Proof.
  induction 1 as [|x l Hl IH Hx]; simpl; [constructor|].
  assert (Forall (R x) (sorted_by key l)) as Hx' by by rewrite sorted_by_perm.
  pose proof (sorted_by_strongly_sorted key l) as Hs.
  clear Hx Hl. revert IH Hx' Hs. generalize (sorted_by key l) as L. clear l.
  intros L. induction L as [|y L IHL]; intros HL Hx Hs; simpl.
  - repeat constructor.
  - apply StronglySorted_cons in HL as [HyL HL].
    apply Forall_cons in Hx as [Hxy Hx].
    apply StronglySorted_cons in Hs as [Hsy Hs].
    destruct (py_lt (key y) (key x)) eqn:Hyx.
    + constructor; [by apply IHL|].
      rewrite (insert_by_perm key x L). constructor; [by left|done].
    + constructor; [by constructor|].
      assert (∀ z, py_le (key x) (key z) → R x z →
                py_lt (key x) (key z) = true ∨ key x = key z ∧ R x z) as Hle.
      { intros z Hxz HR. destruct (py_lt (key x) (key z)) eqn:Hlt; [by left|].
        right. split; [|done]. by apply py_lt_total. }
      constructor; [by apply Hle|].
      rewrite Forall_forall in *. intros z Hz. apply Hle; [|by apply Hx].
      apply (py_le_trans _ (key y)); [done|]. by apply Hsy.
Qed.

(** ** Scores of one tuple *)

(** X1. The conflict count of a tuple is the number of slot listings of its
    sections less the number of distinct slots they list. *)
Theorem conflict_count_closed_form (t : list Course) :
  conflict_count (evaluate t)
  = Z.of_nat (sum_list_with (λ c, length (time_slots c)) t)
    - Z.of_nat (distinct_slots t).
Proof.
  rewrite evaluate_conflict_count, counted_closed_form.
  by rewrite length_bind_sum, length_slot_keys.
Qed.

(** X2. A tuple is free of conflicts exactly when no slot is listed twice
    among all the listings of its sections; [conflicts] is then [None]. *)
Theorem conflict_free_iff_NoDup (t : list Course) :
  (conflict_count (evaluate t) = 0 ↔ NoDup (t ≫= time_slots))
  ∧ (conflicts (evaluate t) = None ↔ NoDup (t ≫= time_slots)).
Proof.
  assert (conflict_count (evaluate t) = 0 ↔ NoDup (t ≫= time_slots)) as Hcc.
  { rewrite evaluate_conflict_count, counted_closed_form.
    unfold slot_keys. rewrite <-length_first_seen_NoDup.
    pose proof (length_first_seen_le (t ≫= time_slots)). lia. }
  split; [done|]. rewrite <-Hcc. unfold evaluate.
  rewrite scan_conflicts_spec; simpl. case_bool_decide; naive_solver.
Qed.

(** X3. The conflicts recorded for a tuple are the slots with two occupants
    or more, in the order in which the slots are first met, each with the
    sections that list it, in the order of the tuple. *)
Theorem conflict_list_spec (t : list Course) :
  conflict_list (evaluate t)
  = (λ k, (k.1, k.2, occupant_list k t))
      <$> filter (λ k, 2 ≤ occupants k t)%nat (slot_keys t).
Proof.
  rewrite evaluate_conflict_list, time_slot_map_tabulate. unfold listed.
  induction (slot_keys t) as [|k ks IH]; csimpl; [done|].
  rewrite !filter_cons; simpl.
  rewrite length_values_of_slot_entries.
  destruct (decide (1 < occupants k t)%nat), (decide (2 ≤ occupants k t)%nat);
    try lia; csimpl; rewrite IH; [|done].
  by rewrite values_of_slot_entries.
Qed.

(** X4. The scores of a tuple do not depend on the order of its sections. *)
Theorem evaluate_permutation (t1 t2 : list Course) :
  t1 ≡ₚ t2 →
  conflict_count (evaluate t1) = conflict_count (evaluate t2)
  ∧ total_priority (evaluate t1) = total_priority (evaluate t2)
  ∧ total_credits (evaluate t1) = total_credits (evaluate t2)
  ∧ req_credits (evaluate t1) = req_credits (evaluate t2)
  ∧ ele_credits (evaluate t1) = ele_credits (evaluate t2).
Proof.
  intros Hperm. split_and!.
  - rewrite !evaluate_conflict_count, !counted_closed_form, !length_slot_keys.
    unfold distinct_slots. by rewrite Hperm.
  - rewrite !(proj1 (evaluate_totals _)). apply sum_Z_perm. by rewrite Hperm.
  - rewrite !(proj2 (evaluate_totals _)). apply sum_Z_perm. by rewrite Hperm.
  - unfold evaluate. rewrite !scan_conflicts_spec; simpl.
    apply sum_Z_perm. by rewrite Hperm.
  - unfold evaluate. rewrite !scan_conflicts_spec; simpl.
    apply sum_Z_perm. by rewrite Hperm.
Qed.

Lemma evaluate_permutation_witness :
  [cA; cB; cC] ≡ₚ [cC; cA; cB]
  ∧ conflict_count (evaluate [cA; cB; cC]) = conflict_count (evaluate [cC; cA; cB]).
Proof.
  assert ([cA; cB; cC] ≡ₚ [cC; cA; cB]) as Hperm.
  { symmetry. apply (Permutation_cons_append [cA; cB] cC). }
  exact (conj Hperm (proj1 (evaluate_permutation _ _ Hperm))).
Defined.

(** X5. When every section of a tuple is of type required or elective, the
    required and the elective credits add up to the total credits. *)
Theorem credits_split (t : list Course) :
  (∀ c, c ∈ t → type c = REQUIRED ∨ type c = ELECTIVE) →
  req_credits (evaluate t) + ele_credits (evaluate t) = total_credits (evaluate t).
Proof.
  intros Htype. unfold evaluate. rewrite scan_conflicts_spec; simpl.
  induction t as [|c t IH]; [done|].
  rewrite !filter_cons. csimpl.
  specialize (IH ltac:(intros c' ?; apply Htype; by right)).
  pose proof REQUIRED_ne_ELECTIVE.
  destruct (Htype c ltac:(left)) as [Hc|Hc]; rewrite Hc.
  - rewrite decide_True, decide_False by done. csimpl. lia.
  - rewrite decide_False, decide_True by done. csimpl. lia.
Qed.

Lemma credits_split_witness :
  (∀ c, c ∈ pool_abc → type c = REQUIRED ∨ type c = ELECTIVE)
  ∧ req_credits (evaluate pool_abc) + ele_credits (evaluate pool_abc)
    = total_credits (evaluate pool_abc).
Proof.
  assert (∀ c, c ∈ pool_abc → type c = REQUIRED ∨ type c = ELECTIVE) as Htype.
  { intros c Hc. unfold pool_abc in Hc.
    repeat (apply elem_of_cons in Hc as [->|Hc]; [by (left + right)|]).
    by apply elem_of_nil in Hc. }
  exact (conj Htype (credits_split pool_abc Htype)).
Defined.

(** ** The generator *)

(** X6. [generate_schedules] returns the empty list in two cases only: the
    must-select check fails, or the cap is zero or negative. *)
Theorem generate_schedules_empty_iff
    (courses required_courses elective_courses : list Course) (max_schedules : Z) :
  (generate_schedules courses required_courses elective_courses max_schedules).1 = []
  ↔ missing_must_select (must_select_names required_courses)
      (available_courses courses) ≠ None
    ∨ max_schedules ≤ 0.
Proof.
  destruct (missing_must_select (must_select_names required_courses)
              (available_courses courses)) as [n|] eqn:Hmiss.
  - rewrite (generate_schedules_missing _ _ _ _ n) by done. naive_solver.
  - rewrite generate_schedules_passed by done. simpl.
    rewrite <-length_zero_iff_nil, length_sorted_by, length_fmap, length_take,
      length_product.
    pose proof (product_size_course_options_pos (available_courses courses)).
    split; [intros ?; right; lia|]. intros [?|?]; [done|lia].
Qed.

(** X7. When the check passes and the cap is not below the size of the
    product, the candidates are all the ways to pick one available section
    for every course name, each once for every position of the product, and
    no warning is given. *)
Theorem generate_schedules_complete
    (courses required_courses elective_courses : list Course) (max_schedules : Z) :
  let available := available_courses courses in
  let pools := course_options available in
  let outcome := generate_schedules courses required_courses elective_courses
                   max_schedules in
  missing_must_select (must_select_names required_courses) available = None →
  (product_size pools ≤ Z.to_nat max_schedules)%nat →
  (∀ t, t ∈ combo <$> outcome.1 ↔
        name <$> t = course_names available ∧ ∀ c, c ∈ t → c ∈ available)
  ∧ combo <$> outcome.1 ≡ₚ product pools
  ∧ outcome.2 = [].
Proof.
  intros available pools outcome Hmiss Hcap.
  assert (combo <$> outcome.1 ≡ₚ product pools) as Hperm.
  { unfold outcome. rewrite generate_schedules_passed by done. simpl.
    fold available pools.
    rewrite sorted_by_perm, <-list_fmap_compose.
    rewrite (list_fmap_ext (combo ∘ evaluate) id (take _ _))
      by (intros _ t _; apply evaluate_combo).
    rewrite list_fmap_id. by rewrite take_ge by (rewrite length_product; lia). }
  split_and!; [|done|].
  - intros t. rewrite Hperm. split.
    + apply product_combo_names.
    + intros [??]. by apply product_of_names.
  - unfold outcome. rewrite generate_schedules_passed by done. simpl.
    fold available pools. by rewrite decide_False by lia.
Qed.

Lemma generate_schedules_complete_witness :
  missing_must_select (must_select_names (required_of pool_xy))
    (available_courses pool_xy) = None
  ∧ (product_size (course_options (available_courses pool_xy)) ≤ Z.to_nat 1000)%nat
  ∧ combo <$> (generate_schedules pool_xy (required_of pool_xy)
                 (elective_of pool_xy) 1000).1
    ≡ₚ product (course_options (available_courses pool_xy)).
Proof.
  assert (missing_must_select (must_select_names (required_of pool_xy))
            (available_courses pool_xy) = None) as Hmiss by (vm_compute; reflexivity).
  assert (product_size (course_options (available_courses pool_xy))
          ≤ Z.to_nat 1000)%nat as Hcap by (vm_compute; lia).
  destruct (generate_schedules_complete pool_xy (required_of pool_xy)
              (elective_of pool_xy) 1000 Hmiss Hcap) as (_ & Hperm & _).
  done.
Defined.

(** X8. The must-select names act through the check only: two calls on the
    same pool and cap whose checks both pass return the same result, whatever
    the required and elective lists are. *)
Theorem must_select_only_gates
    (courses required1 required2 elective1 elective2 : list Course) (max_schedules : Z) :
  missing_must_select (must_select_names required1) (available_courses courses) = None →
  missing_must_select (must_select_names required2) (available_courses courses) = None →
  generate_schedules courses required1 elective1 max_schedules
  = generate_schedules courses required2 elective2 max_schedules.
Proof. intros H1 H2. by rewrite !generate_schedules_passed. Qed.

Lemma must_select_only_gates_witness :
  missing_must_select (must_select_names [cX1]) (available_courses pool_xy) = None
  ∧ missing_must_select (must_select_names []) (available_courses pool_xy) = None
  ∧ generate_schedules pool_xy [cX1] [cY] 1000 = generate_schedules pool_xy [] [] 1000.
Proof.
  assert (missing_must_select (must_select_names [cX1]) (available_courses pool_xy)
          = None) as H1 by (vm_compute; reflexivity).
  assert (missing_must_select (must_select_names []) (available_courses pool_xy)
          = None) as H2 by (vm_compute; reflexivity).
  exact (conj H1 (conj H2 (must_select_only_gates pool_xy _ _ [cY] [] 1000 H1 H2))).
Defined.

(** X9. Every course group is non-empty, holds exactly the available sections
    of its name, and is ordered with must-select sections first and then by
    descending priority; sections that agree on both keep the order of the
    pool. *)
Theorem course_groups_sorted (available : list Course) (i : nat) (n : string) :
  course_names available !! i = Some n →
  ∃ g, course_options available !! i = Some g
       ∧ g ≠ []
       ∧ g ≡ₚ filter (λ c, name c = n) available
       ∧ StronglySorted group_order g
       ∧ ∀ k, filter (λ c, group_key c = k) g
              = filter (λ c, group_key c = k) (filter (λ c, name c = n) available).
Proof.
  intros Hn. rewrite course_options_spec, list_lookup_fmap, Hn. simpl.
  eexists. split; [done|]. split_and!.
  - apply list_elem_of_lookup_2, elem_of_course_names, list_elem_of_fmap in Hn
      as (c & -> & Hc).
    intros Hnil. apply (f_equal length) in Hnil. rewrite length_sorted_by in Hnil.
    assert (c ∈ filter (λ c', name c' = name c) available) as Hin
      by by rewrite list_elem_of_filter.
    destruct (filter _ available); [by apply elem_of_nil in Hin|done].
  - apply sorted_by_perm.
  - eapply StronglySorted_weaken; [|apply sorted_by_strongly_sorted].
    intros a b _ _. apply group_key_order.
  - intros k. apply sorted_by_filter_key.
Qed.

Lemma course_groups_sorted_witness :
  course_names (available_courses pool_xy) !! 0%nat = Some "X"
  ∧ ∃ g, course_options (available_courses pool_xy) !! 0%nat = Some g
         ∧ StronglySorted group_order g.
Proof.
  assert (course_names (available_courses pool_xy) !! 0%nat = Some "X") as Hn
    by (vm_compute; reflexivity).
  destruct (course_groups_sorted _ _ _ Hn) as (g & Hg & _ & _ & Hs & _).
  split; [done|]. by exists g.
Defined.

(** X10. When every section of the pool is temporarily excluded and no
    required section is must-select, a positive cap yields one candidate: the
    empty timetable, with all scores zero and no message. *)
Theorem all_excluded_one_empty_candidate
    (courses required_courses elective_courses : list Course) (max_schedules : Z) :
  (∀ c, c ∈ courses → temporarily_exclude c = true) →
  (∀ c, c ∈ required_courses → must_select c = false) →
  0 < max_schedules →
  generate_schedules courses required_courses elective_courses max_schedules
  = ([{| combo := []; total_priority := 0; total_credits := 0; req_credits := 0;
         ele_credits := 0; conflicts := None; conflict_count := 0 |}], []).
Proof.
  intros Hex Hms Hmax.
  assert (available_courses courses = []) as Hav.
  { apply filter_none. intros c Hc. rewrite (Hex c Hc). done. }
  assert (must_select_names required_courses = ∅) as Hmust.
  { unfold must_select_names. rewrite filter_none; [done|].
    intros c Hc. rewrite (Hms c Hc). done. }
  rewrite generate_schedules_passed.
  - rewrite Hav. assert (course_options [] = []) as -> by done.
    rewrite decide_False by (simpl; lia).
    rewrite take_ge by (rewrite length_product; simpl; lia).
    by vm_compute.
  - by rewrite Hav, Hmust.
Qed.

Lemma all_excluded_one_empty_candidate_witness :
  (∀ c, c ∈ [cM] → temporarily_exclude c = true)
  ∧ (∀ c, c ∈ @nil Course → must_select c = false)
  ∧ 0 < 1000
  ∧ (generate_schedules [cM] [] [] 1000).2 = [].
Proof.
  assert (∀ c, c ∈ [cM] → temporarily_exclude c = true) as H1
    by by intros c ->%list_elem_of_singleton.
  assert (∀ c, c ∈ @nil Course → must_select c = false) as H2
    by by intros c ?%elem_of_nil.
  assert (0 < 1000) as H3 by lia.
  split_and!; [done..|].
  by rewrite (all_excluded_one_empty_candidate [cM] [] [] 1000 H1 H2 H3).
Defined.

(** ** Ranking *)

Lemma rank_rank (p q : string) (l : list Schedule) : rank p (rank q l) = rank p l.
Proof.
  unfold rank. apply (sorted_by_stable (sort_key p) l).
  - apply sorted_by_strongly_sorted.
  - intros k. rewrite sorted_by_filter_key.
    destruct (sort_key_cases p q k) as [k' Hk'].
    rewrite (list_filter_iff _ (λ s, sort_key q s = k')) by done.
    rewrite sorted_by_filter_key. by apply list_filter_iff.
Qed.

(** X11. Ranking forgets the order it is given as far as the other policy is
    concerned: ranking with one policy a list that was ranked with any policy
    gives the same list as ranking the original list. *)
Theorem rank_forgets_history (p q : string) (l : list Schedule) :
  rank p (rank q l) = rank p l.
Proof. apply rank_rank. Qed.

(** X12. With any sort option other than "conflicts first" the ranked list has
    non-increasing total priority, and among equal priorities non-decreasing
    conflict count. *)
Theorem rank_priority_first_monotone
    (sort_option : string) (l : list Schedule) (i j : nat) (a b : Schedule) :
  sort_option ≠ CONFLICTS_FIRST →
  (i < j)%nat →
  rank sort_option l !! i = Some a →
  rank sort_option l !! j = Some b →
  total_priority b ≤ total_priority a
  ∧ (total_priority a = total_priority b → conflict_count a ≤ conflict_count b).
Proof.
  intros Hopt Hij Ha Hb.
  pose proof (StronglySorted_lookup _ _ i j a b
                (sorted_by_strongly_sorted (sort_key sort_option) l) Hij Ha Hb)
    as Hab.
  unfold key_le, py_le, sort_key in Hab.
  rewrite bool_decide_eq_false_2 in Hab by done.
  cbv [py_lt pair_py_lt Z_py_lt] in Hab; simpl in Hab.
  case_bool_decide; rewrite ?Z.ltb_ge in Hab; lia.
Qed.

Lemma rank_priority_first_monotone_witness :
  PRIORITY_FIRST ≠ CONFLICTS_FIRST
  ∧ (0 < 1)%nat
  ∧ rank PRIORITY_FIRST scored_list !! 0%nat = Some (scored 2 12 6)
  ∧ rank PRIORITY_FIRST scored_list !! 1%nat = Some (scored 2 9 4)
  ∧ total_priority (scored 2 9 4) ≤ total_priority (scored 2 12 6).
Proof.
  assert (PRIORITY_FIRST ≠ CONFLICTS_FIRST) as H0
    by (unfold PRIORITY_FIRST, CONFLICTS_FIRST; discriminate).
  assert (0 < 1)%nat as H1 by lia.
  assert (rank PRIORITY_FIRST scored_list !! 0%nat = Some (scored 2 12 6)) as H2
    by (vm_compute; reflexivity).
  assert (rank PRIORITY_FIRST scored_list !! 1%nat = Some (scored 2 9 4)) as H3
    by (vm_compute; reflexivity).
  exact (conj H0 (conj H1 (conj H2 (conj H3
    (proj1 (rank_priority_first_monotone PRIORITY_FIRST scored_list 0 1 _ _
              H0 H1 H2 H3)))))).
Defined.

(** X13. The list that [generate_schedules] returns is already in the order
    of the policy "conflicts first": ranking it with that policy leaves it
    unchanged, total credits still deciding among equal scores. *)
Theorem rank_generated_fixed
    (courses required_courses elective_courses : list Course) (max_schedules : Z) :
  rank CONFLICTS_FIRST
    (generate_schedules courses required_courses elective_courses max_schedules).1
  = (generate_schedules courses required_courses elective_courses max_schedules).1.
Proof.
  apply sorted_by_id.
  destruct (missing_must_select (must_select_names required_courses)
              (available_courses courses)) as [n|] eqn:Hmiss.
  - rewrite (generate_schedules_missing _ _ _ _ n) by done. constructor.
  - rewrite generate_schedules_passed by done. simpl.
    apply StronglySorted_Sorted.
    eapply StronglySorted_weaken; [|apply sorted_by_strongly_sorted].
    intros a b _ _. unfold key_le, py_le, schedule_key, generated_key, sort_key.
    rewrite bool_decide_eq_true_2 by done.
    cbv [py_lt pair_py_lt Z_py_lt]; simpl.
    repeat case_bool_decide; rewrite ?Z.ltb_ge; try lia; done.
Qed.

(** ** Deleting the ticked times *)

Section deleting.
Context {A : Type}.
Implicit Types (l : list A) (boxes : nat → bool).

Local Abbreviation del_step :=
  (λ (acc : option (list A)) (idx : nat), l ← acc; py_del idx l).

Lemma sorted_by_snoc_least {B K} `{PyLtLaws K} (key : B → K) (l : list B) (x : B) :
  (∀ y, y ∈ l → py_lt (key x) (key y) = true) →
  sorted_by key (l ++ [x]) = x :: sorted_by key l.
Proof.
  induction l as [|y l IH]; intros Hx; simpl; [done|].
  rewrite IH by (intros z ?; apply Hx; by right). simpl.
  by rewrite (Hx y) by left.
Qed.

Lemma delete_indices_snoc boxes l x :
  delete_indices boxes (l ++ [x])
  = delete_indices boxes l ++ (if boxes (length l) then [length l] else []).
Proof.
  unfold delete_indices. rewrite length_app. simpl.
  rewrite Nat.add_1_r, seq_S, filter_app. simpl. f_equal.
  rewrite filter_cons, filter_nil. by destruct (boxes (length l)).
Qed.

Lemma delete_indices_lt boxes l i : i ∈ delete_indices boxes l → (i < length l)%nat.
Proof.
  unfold delete_indices. rewrite list_elem_of_filter, list_elem_of_In, in_seq. lia.
Qed.

Lemma unticked_snoc boxes l x :
  unticked boxes (l ++ [x])
  = unticked boxes l ++ (if boxes (length l) then [] else [x]).
Proof.
  unfold unticked. rewrite length_app. simpl. rewrite Nat.add_1_r, seq_S. simpl.
  rewrite zip_with_app by by rewrite length_seq.
  rewrite filter_app, fmap_app. f_equal. simpl.
  rewrite filter_cons, filter_nil. simpl. by destruct (boxes (length l)).
Qed.

Lemma foldl_del_None (idxs : list nat) : foldl del_step None idxs = None.
Proof. by induction idxs. Qed.

Lemma foldl_del_app (idxs : list nat) l r tail :
  foldl del_step (Some l) idxs = Some r →
  foldl del_step (Some (l ++ tail)) idxs = Some (r ++ tail).
Proof.
  revert l. induction idxs as [|i idxs IH]; intros l; simpl.
  - by intros [= ->].
  - unfold py_del. rewrite length_app.
    destruct (decide (i < length l)%nat) as [Hi|Hi].
    + rewrite decide_True by lia. intros Hr.
      apply lookup_lt_is_Some in Hi as [x Hx].
      apply list_elem_of_split_length in Hx as (l1 & l2 & -> & ->).
      rewrite delete_middle in Hr. rewrite <-app_assoc. simpl.
      rewrite delete_middle, app_assoc. by apply IH.
    + by rewrite foldl_del_None.
Qed.

Lemma delete_selected_unticked boxes l :
  delete_selected boxes l = Some (unticked boxes l).
Proof.
  unfold delete_selected, sorted_reverse.
  induction l as [|x l IH] using rev_ind; [done|].
  rewrite delete_indices_snoc, unticked_snoc.
  destruct (boxes (length l)) eqn:Hbox.
  - rewrite sorted_by_snoc_least.
    + simpl. assert (py_del (length l) (l ++ [x]) = Some l) as ->.
      { unfold py_del. rewrite decide_True by (rewrite length_app; simpl; lia).
        by rewrite (delete_middle l [] x), app_nil_r. }
      rewrite app_nil_r. apply IH.
    + intros i Hi%delete_indices_lt. cbv [py_lt Z_py_lt]. apply Z.ltb_lt. lia.
  - rewrite app_nil_r. by apply foldl_del_app.
Qed.
End deleting.

(** X14. Deleting the ticked times never raises [IndexError]: taking the
    ticked indices in descending order removes exactly the elements whose box
    is ticked and keeps the others in their order. *)
Theorem delete_selected_spec {A} (boxes : nat → bool) (time_slots : list A) :
  delete_selected boxes time_slots = Some (unticked boxes time_slots)
  ∧ (∀ i x, unticked boxes time_slots !! i = Some x → x ∈ time_slots)
  ∧ length (unticked boxes time_slots)
    = (length time_slots - length (delete_indices boxes time_slots))%nat.
Proof.
  split_and!; [apply delete_selected_unticked| |].
  - intros i x Hx%list_elem_of_lookup_2. unfold unticked in Hx.
    apply list_elem_of_fmap in Hx as ([j y] & -> & [_ Hin]%list_elem_of_filter).
    by apply elem_of_zip_r in Hin.
  - induction time_slots as [|x l IH] using rev_ind; [done|].
    rewrite unticked_snoc, delete_indices_snoc, !length_app, IH.
    assert (length (delete_indices boxes l) ≤ length l)%nat.
    { unfold delete_indices.
      pose proof (length_filter (λ idx, boxes idx = true) (seq 0 (length l))) as Hf.
      by rewrite length_seq in Hf. }
    destruct (boxes (length l)); simpl; lia.
Qed.

(** ** The buttons that generate and sort *)

Section buttons.
Implicit Types (st : session_state) (l : list Schedule).

Lemma generate_schedules_nonneg courses required elective max_schedules s :
  s ∈ (generate_schedules courses required elective max_schedules).1 →
  0 ≤ conflict_count s.
Proof.
  intros (_ & t & _ & ->)%generate_schedules_elem.
  rewrite evaluate_conflict_count. apply counted_nonneg.
Qed.

Lemma generate_schedules_strongly_sorted courses required elective max_schedules :
  StronglySorted generated_order
    (generate_schedules courses required elective max_schedules).1.
Proof.
  destruct (missing_must_select (must_select_names required)
              (available_courses courses)) as [n|] eqn:Hmiss.
  - rewrite (generate_schedules_missing _ _ _ _ n) by done. constructor.
  - rewrite generate_schedules_passed by done. simpl.
    eapply StronglySorted_weaken; [|apply sorted_by_strongly_sorted].
    intros a b _ _. apply schedule_key_generated_order.
Qed.

Lemma StronglySorted_filter {A} (R : relation A) (P : A → Prop)
    `{∀ x, Decision (P x)} (l : list A) :
  StronglySorted R l → StronglySorted R (filter P l).
Proof.
  induction 1 as [|x l Hl IH Hx]; [constructor|].
  rewrite filter_cons. destruct (decide (P x)); [|done].
  constructor; [done|]. rewrite Forall_forall in *.
  intros y [_ ?]%list_elem_of_filter. by apply Hx.
Qed.

Lemma filter_conflict_split_perm l :
  (∀ s, s ∈ l → 0 ≤ conflict_count s) →
  filter (λ s, conflict_count s = 0) l ++ filter (λ s, 0 < conflict_count s) l ≡ₚ l.
Proof.
  intros Hl.
  assert (filter (λ s, 0 < conflict_count s) l
          = filter (λ s, ¬ conflict_count s = 0) l) as ->.
  { induction l as [|s l IH]; [done|].
    rewrite !filter_cons. pose proof (Hl s ltac:(left)).
    rewrite IH by (intros s' ?; apply Hl; by right).
    destruct (decide (0 < conflict_count s)), (decide (¬ conflict_count s = 0));
      (done || lia). }
  apply filter_app_complement.
Qed.

Lemma filter_conflict_split_sorted l :
  (∀ s, s ∈ l → 0 ≤ conflict_count s) → StronglySorted generated_order l →
  filter (λ s, conflict_count s = 0) l ++ filter (λ s, 0 < conflict_count s) l = l.
Proof.
  intros Hl Hs. induction Hs as [|s l Hs IH Hx]; [done|].
  specialize (IH ltac:(intros s' ?; apply Hl; by right)).
  rewrite !filter_cons. pose proof (Hl s ltac:(left)).
  destruct (decide (conflict_count s = 0)) as [Hz|Hnz].
  - rewrite decide_False by lia. simpl. by rewrite IH.
  - rewrite decide_True by lia.
    rewrite (filter_none (λ s, conflict_count s = 0) l).
    + simpl. f_equal. apply filter_all. rewrite Forall_forall in *.
      intros s' Hs'. specialize (Hx s' Hs'). unfold generated_order in Hx. lia.
    + rewrite Forall_forall in Hx. intros s' Hs'. specialize (Hx s' Hs').
      unfold generated_order in Hx. lia.
Qed.

Lemma sort_key_eq (p : string) (a b : Schedule) :
  sort_key p a = sort_key p b
  ↔ conflict_count a = conflict_count b ∧ total_priority a = total_priority b.
Proof.
  unfold sort_key. destruct (bool_decide (p = CONFLICTS_FIRST)).
  - split; [intros [= ??]; split; [done|lia]|by intros [-> ->]].
  - split; [intros [= ??]; split; [done|lia]|by intros [-> ->]].
Qed.

Lemma generated_order_policy (p : string) (a b : Schedule) :
  sort_key p a = sort_key p b → generated_order a b → total_credits b ≤ total_credits a.
Proof. rewrite sort_key_eq. unfold generated_order. lia. Qed.

Lemma rank_generated_policy_order (p : string) l :
  StronglySorted generated_order l → StronglySorted (policy_order p) (rank p l).
Proof.
  intros Hl. eapply StronglySorted_weaken;
    [|apply (sorted_by_refines (sort_key p) generated_order), Hl].
  intros a b _ _ [Hlt|[Hkey Hgen]]; [by left|right].
  split; [done|]. by eapply generated_order_policy.
Qed.

Lemma rank_nil_iff (p : string) l : rank p l = [] ↔ l = [].
Proof.
  rewrite <-!length_zero_iff_nil. unfold rank. by rewrite length_sorted_by.
Qed.

(** The successful run of the generate button, spelled out. *)
Lemma click_generate_success sort_option st :
  let all_schedules := (generate_schedules (st_courses st) (required_of (st_courses st))
                          (elective_of (st_courses st)) 1000).1 in
  let log := (generate_schedules (st_courses st) (required_of (st_courses st))
                (elective_of (st_courses st)) 1000).2 in
  st_courses st ≠ [] → required_of (st_courses st) ≠ [] → all_schedules ≠ [] →
  click_generate sort_option st
  = ({| st_courses := st_courses st;
        st_generated_schedules :=
          rank sort_option (filter (λ s, conflict_count s = 0) all_schedules);
        st_conflict_schedules :=
          rank sort_option (filter (λ s, 0 < conflict_count s) all_schedules);
        st_time_slots := st_time_slots st |},
     (FromGenerator <$> log) ++ [SchedulesGenerated]).
Proof.
  intros all_schedules log Hc Hr Hall. unfold click_generate, all_schedules, log in *.
  rewrite bool_decide_eq_false_2 by done.
  rewrite bool_decide_eq_false_2 by done.
  destruct (generate_schedules _ _ _ _) as [all lg]; simpl in *.
  by rewrite bool_decide_eq_false_2 by done.
Qed.
End buttons.

(** X15. When the generate button succeeds, the two stored lists together
    hold the generated candidates, those without conflict in the first list
    and those with conflicts in the second; the courses and the forms are
    left as they were. *)
Theorem click_generate_partition (sort_option : string) (st : session_state) :
  let all_schedules := (generate_schedules (st_courses st) (required_of (st_courses st))
                          (elective_of (st_courses st)) 1000).1 in
  let st' := (click_generate sort_option st).1 in
  st_courses st ≠ [] → required_of (st_courses st) ≠ [] → all_schedules ≠ [] →
  st_generated_schedules st' ++ st_conflict_schedules st' ≡ₚ all_schedules
  ∧ Forall (λ s, conflict_count s = 0) (st_generated_schedules st')
  ∧ Forall (λ s, 0 < conflict_count s) (st_conflict_schedules st')
  ∧ st_courses st' = st_courses st
  ∧ st_time_slots st' = st_time_slots st
  ∧ SchedulesGenerated ∈ (click_generate sort_option st).2.
Proof.
  intros all_schedules st' Hc Hr Hall. unfold st'.
  rewrite click_generate_success by done. simpl. fold all_schedules.
  split_and!; [| | |done|done|].
  - unfold rank. rewrite !sorted_by_perm. apply filter_conflict_split_perm.
    intros s. apply generate_schedules_nonneg.
  - apply Forall_forall. intros s. unfold rank.
    rewrite elem_of_sorted_by, list_elem_of_filter. by intros [? _].
  - apply Forall_forall. intros s. unfold rank.
    rewrite elem_of_sorted_by, list_elem_of_filter. by intros [? _].
  - rewrite elem_of_app, list_elem_of_singleton. by right.
Qed.

Lemma click_generate_partition_witness :
  let st := {| st_courses := pool_abc; st_generated_schedules := [];
               st_conflict_schedules := []; st_time_slots := ∅ |} in
  st_courses st ≠ []
  ∧ required_of (st_courses st) ≠ []
  ∧ (generate_schedules (st_courses st) (required_of (st_courses st))
       (elective_of (st_courses st)) 1000).1 ≠ []
  ∧ st_generated_schedules (click_generate CONFLICTS_FIRST st).1
      ++ st_conflict_schedules (click_generate CONFLICTS_FIRST st).1
    ≡ₚ (generate_schedules (st_courses st) (required_of (st_courses st))
          (elective_of (st_courses st)) 1000).1.
Proof.
  intros st.
  assert (st_courses st ≠ []) as H1 by done.
  assert (required_of (st_courses st) ≠ []) as H2 by (vm_compute; discriminate).
  assert ((generate_schedules (st_courses st) (required_of (st_courses st))
             (elective_of (st_courses st)) 1000).1 ≠ []) as H3
    by (vm_compute; discriminate).
  exact (conj H1 (conj H2 (conj H3
    (proj1 (click_generate_partition CONFLICTS_FIRST st H1 H2 H3))))).
Defined.

(** X16. After a successful generate button either stored list is in the
    order of the chosen sort option with total credits, descending, as the
    third key; with the option "conflicts first" the two lists, one after the
    other, are the generated list itself. *)
Theorem click_generate_three_keys (sort_option : string) (st : session_state) :
  let all_schedules := (generate_schedules (st_courses st) (required_of (st_courses st))
                          (elective_of (st_courses st)) 1000).1 in
  let st' := (click_generate sort_option st).1 in
  st_courses st ≠ [] → required_of (st_courses st) ≠ [] → all_schedules ≠ [] →
  StronglySorted (policy_order sort_option) (st_generated_schedules st')
  ∧ StronglySorted (policy_order sort_option) (st_conflict_schedules st')
  ∧ (sort_option = CONFLICTS_FIRST →
       st_generated_schedules st' ++ st_conflict_schedules st' = all_schedules).
Proof.
  intros all_schedules st' Hc Hr Hall. unfold st'.
  rewrite click_generate_success by done. simpl. fold all_schedules.
  pose proof (generate_schedules_strongly_sorted (st_courses st)
                (required_of (st_courses st)) (elective_of (st_courses st)) 1000)
    as Hs. fold all_schedules in Hs.
  split_and!.
  - by apply rank_generated_policy_order, StronglySorted_filter.
  - by apply rank_generated_policy_order, StronglySorted_filter.
  - intros ->. unfold rank.
    assert (∀ l, StronglySorted generated_order l →
              sorted_by (sort_key CONFLICTS_FIRST) l = l) as Hid.
    { intros l Hl. apply sorted_by_id, StronglySorted_Sorted.
      eapply StronglySorted_weaken; [|done].
      intros a b _ _ Hab. unfold key_le, py_le, sort_key.
      rewrite bool_decide_eq_true_2 by done.
      unfold generated_order in Hab. cbv [py_lt pair_py_lt Z_py_lt]; simpl.
      case_bool_decide; rewrite ?Z.ltb_ge; lia. }
    rewrite !Hid by by apply StronglySorted_filter.
    apply filter_conflict_split_sorted; [|done].
    intros s. apply generate_schedules_nonneg.
Qed.

Lemma click_generate_three_keys_witness :
  let st := {| st_courses := pool_xy; st_generated_schedules := [];
               st_conflict_schedules := []; st_time_slots := ∅ |} in
  st_courses st ≠ []
  ∧ required_of (st_courses st) ≠ []
  ∧ (generate_schedules (st_courses st) (required_of (st_courses st))
       (elective_of (st_courses st)) 1000).1 ≠ []
  ∧ StronglySorted (policy_order PRIORITY_FIRST)
      (st_generated_schedules (click_generate PRIORITY_FIRST st).1).
Proof.
  intros st.
  assert (st_courses st ≠ []) as H1 by done.
  assert (required_of (st_courses st) ≠ []) as H2 by (vm_compute; discriminate).
  assert ((generate_schedules (st_courses st) (required_of (st_courses st))
             (elective_of (st_courses st)) 1000).1 ≠ []) as H3
    by (vm_compute; discriminate).
  exact (conj H1 (conj H2 (conj H3
    (proj1 (click_generate_three_keys PRIORITY_FIRST st H1 H2 H3))))).
Defined.

(** X17. When there is no course, no required course, or a must-select course
    without an available section, the generate button leaves the whole
    session as it was and does not report success. *)
Theorem click_generate_failure (sort_option : string) (st : session_state) :
  st_courses st = []
  ∨ required_of (st_courses st) = []
  ∨ missing_must_select (must_select_names (required_of (st_courses st)))
      (available_courses (st_courses st)) ≠ None →
  (click_generate sort_option st).1 = st
  ∧ SchedulesGenerated ∉ (click_generate sort_option st).2.
Proof.
  intros Hfail. unfold click_generate.
  case_bool_decide as Hc; [split; [done|]; by intros [=]%list_elem_of_singleton|].
  case_bool_decide as Hr; [split; [done|]; by intros [=]%list_elem_of_singleton|].
  destruct Hfail as [?|[?|Hmiss]]; [done..|].
  destruct (missing_must_select _ _) as [n|] eqn:Hn; [|done].
  rewrite (generate_schedules_missing _ _ _ _ n) by done. simpl.
  split; [done|].
  intros [[=]|[=]%list_elem_of_singleton]%elem_of_cons.
Qed.

Lemma click_generate_failure_witness :
  let st := {| st_courses := pool_missing; st_generated_schedules := [scored 0 1 1];
               st_conflict_schedules := []; st_time_slots := ∅ |} in
  (st_courses st = []
   ∨ required_of (st_courses st) = []
   ∨ missing_must_select (must_select_names (required_of (st_courses st)))
       (available_courses (st_courses st)) ≠ None)
  ∧ (click_generate CONFLICTS_FIRST st).1 = st.
Proof.
  intros st.
  assert (st_courses st = []
          ∨ required_of (st_courses st) = []
          ∨ missing_must_select (must_select_names (required_of (st_courses st)))
              (available_courses (st_courses st)) ≠ None) as Hfail
    by (right; right; vm_compute; discriminate).
  exact (conj Hfail (proj1 (click_generate_failure CONFLICTS_FIRST st Hfail))).
Defined.

(** X18. Ranking keeps total credits as the third key: a list in the order of
    one sort option with total credits descending among equal scores is, after
    ranking with any sort option, in the order of that option with total
    credits descending among equal scores. *)
Theorem rank_keeps_credit_ties (p q : string) (l : list Schedule) :
  StronglySorted (policy_order q) l → StronglySorted (policy_order p) (rank p l).
Proof.
  intros Hl. eapply StronglySorted_weaken;
    [|apply (sorted_by_refines (sort_key p) (policy_order q)), Hl].
  intros a b _ _ [Hlt|[Hkey [Hlt|[_ Htc]]]]; [by left| |by right].
  apply sort_key_eq in Hkey. apply (sort_key_eq q) in Hkey.
  rewrite Hkey, py_lt_irrefl in Hlt. done.
Qed.

Lemma rank_keeps_credit_ties_witness :
  StronglySorted (policy_order CONFLICTS_FIRST) [scored 0 7 4; scored 0 7 2]
  ∧ StronglySorted (policy_order PRIORITY_FIRST)
      (rank PRIORITY_FIRST [scored 0 7 4; scored 0 7 2]).
Proof.
  assert (StronglySorted (policy_order CONFLICTS_FIRST)
            [scored 0 7 4; scored 0 7 2]) as Hs.
  { constructor; [repeat constructor|].
    constructor; [|constructor]. right. split; [reflexivity|simpl; lia]. }
  exact (conj Hs (rank_keeps_credit_ties PRIORITY_FIRST CONFLICTS_FIRST _ Hs)).
Defined.

(** X19. Applying a sort option after another one gives the same session and
    the same message as applying it at once. *)
Theorem click_apply_sort_last_wins (p q : string) (st : session_state) :
  click_apply_sort p (click_apply_sort q st).1 = click_apply_sort p st.
Proof.
  unfold click_apply_sort at 2.
  case_bool_decide as Hne; [|done]. simpl.
  unfold click_apply_sort. simpl.
  rewrite bool_decide_eq_true_2 by (rewrite !rank_nil_iff; done).
  rewrite bool_decide_eq_true_2 by done.
  by rewrite !rank_rank.
Qed.

(** ** The forms that add a course *)

Section forms.
Implicit Types (st : session_state) (course_type : string).

Lemma existsb_name_class (n cid : string) (courses : list Course) :
  existsb (λ c, bool_decide (name c = n) && bool_decide (class_id c = cid)) courses
  = false ↔ (n, cid) ∉ (λ c, (name c, class_id c)) <$> courses.
Proof.
  induction courses as [|c courses IH]; csimpl.
  - split; [intros _; apply not_elem_of_nil|done].
  - rewrite orb_false_iff, IH, not_elem_of_cons, andb_false_iff.
    rewrite !bool_decide_eq_false. split.
    + intros [Hc ?]. split; [|done]. intros [= -> ->]. naive_solver.
    + intros [Hc ?]. split; [|done].
      destruct (decide (name c = n)) as [<-|]; [|by left].
      right. intros <-. done.
Qed.

Lemma unticked_none {A} (boxes : nat → bool) (l : list A) :
  (∀ i, (i < length l)%nat → boxes i = false) → unticked boxes l = l.
Proof.
  induction l as [|x l IH] using rev_ind; intros Hb; [done|].
  rewrite unticked_snoc, IH.
  - by rewrite Hb by (rewrite length_app; simpl; lia).
  - intros i Hi. apply Hb. rewrite length_app. lia.
Qed.
End forms.

(** X20. The button that adds a course keeps two invariants of the course
    list: no two courses share name and class, and every course has a name, a
    class and at least one time. It never touches the stored schedules. When
    it accepts, the new course is put last with the times collected by its
    form, and that form alone is emptied; when it rejects, the session is left
    as it was. *)
Theorem click_add_course_invariants
    (course_type form_name form_class_id : string) (form_credits form_priority : Z)
    (form_teacher form_notes : string) (form_must_select form_temporarily_exclude : bool)
    (st st' : session_state) (log : list Notice) :
  click_add_course course_type form_name form_class_id form_credits form_priority
    form_teacher form_notes form_must_select form_temporarily_exclude st
  = Some (st', log) →
  unique_sections (st_courses st) →
  Forall complete_course (st_courses st) →
  unique_sections (st_courses st')
  ∧ Forall complete_course (st_courses st')
  ∧ st_generated_schedules st' = st_generated_schedules st
  ∧ st_conflict_schedules st' = st_conflict_schedules st
  ∧ (log = [CourseAdded form_name] →
       ∃ c, st_courses st' = st_courses st ++ [c]
            ∧ name c = form_name ∧ class_id c = form_class_id
            ∧ type c = course_type
            ∧ st_time_slots st !! course_type = Some (time_slots c)
            ∧ st_time_slots st' = <[course_type := []]> (st_time_slots st))
  ∧ (log ≠ [CourseAdded form_name] → st' = st).
Proof.
  unfold click_add_course. intros Hclick Huniq Hcomplete.
  destruct (st_time_slots st !! course_type) as [tss|] eqn:Htss; [|done].
  simpl in Hclick. case_bool_decide as Hform.
  { injection Hclick as <- <-. split_and!; done. }
  destruct (existsb _ _) eqn:Hdup.
  { injection Hclick as <- <-. split_and!; done. }
  injection Hclick as <- <-. simpl.
  apply existsb_name_class in Hdup.
  split_and!; [| |done|done| |done].
  - unfold unique_sections in *. rewrite fmap_app. csimpl.
    apply NoDup_app. split_and!; [done| |apply NoDup_singleton].
    intros k Hk ->%list_elem_of_singleton. done.
  - apply Forall_app. split; [done|]. constructor; [|constructor].
    unfold complete_course. simpl. naive_solver.
  - intros _. eexists. split; [done|]. simpl. done.
Qed.

Lemma click_add_course_invariants_witness :
  let st := {| st_courses := [cA]; st_generated_schedules := [];
               st_conflict_schedules := [];
               st_time_slots := {[ REQUIRED := [("Tue", 3)]; ELECTIVE := [] ]} |} in
  let st' := {| st_courses := [cA; mk "B" REQUIRED "1" 2 3 [("Tue", 3)] false false];
                st_generated_schedules := []; st_conflict_schedules := [];
                st_time_slots := <[REQUIRED := []]>
                                   {[ REQUIRED := [("Tue", 3)]; ELECTIVE := [] ]} |} in
  click_add_course REQUIRED "B" "1" 2 3 "" "" false false st
  = Some (st', [CourseAdded "B"])
  ∧ unique_sections (st_courses st)
  ∧ Forall complete_course (st_courses st)
  ∧ unique_sections (st_courses st').
Proof.
  intros st st'.
  assert (click_add_course REQUIRED "B" "1" 2 3 "" "" false false st
          = Some (st', [CourseAdded "B"])) as H1 by (vm_compute; reflexivity).
  assert (unique_sections (st_courses st)) as H2.
  { unfold unique_sections. simpl. apply NoDup_singleton. }
  assert (Forall complete_course (st_courses st)) as H3.
  { constructor; [|constructor]. unfold complete_course. by vm_compute. }
  exact (conj H1 (conj H2 (conj H3
    (proj1 (click_add_course_invariants _ _ _ _ _ _ _ _ _ _ _ _ H1 H2 H3))))).
Defined.

(** X21. The buttons of the two forms never raise [KeyError]: in a session
    where both forms have their entry in the time-slot dictionary, adding a
    time, deleting times and adding a course all go through for either form,
    and both entries are still there afterwards. *)
Theorem forms_never_fail
    (course_type : string) (st : session_state)
    (day : string) (period : Z) (boxes : nat → bool)
    (form_name form_class_id : string) (form_credits form_priority : Z)
    (form_teacher form_notes : string) (form_must_select form_temporarily_exclude : bool) :
  forms_present st →
  course_type = REQUIRED ∨ course_type = ELECTIVE →
  (∃ st' log, click_add_time course_type day period st = Some (st', log)
              ∧ forms_present st')
  ∧ (∃ st' log, click_delete_times course_type boxes st = Some (st', log)
                ∧ forms_present st')
  ∧ (∃ st' log, click_add_course course_type form_name form_class_id form_credits
                  form_priority form_teacher form_notes form_must_select
                  form_temporarily_exclude st = Some (st', log)
                ∧ forms_present st').
Proof.
  intros [Hreq Hele] Htype.
  assert (∀ v, is_Some (<[course_type := v]> (st_time_slots st) !! REQUIRED)
               ∧ is_Some (<[course_type := v]> (st_time_slots st) !! ELECTIVE))
    as Hkeep.
  { intros v. rewrite !lookup_insert_is_Some. split; destruct Htype; subst;
      destruct (decide (REQUIRED = ELECTIVE)); naive_solver. }
  assert (is_Some (st_time_slots st !! course_type)) as [tss Htss]
    by (destruct Htype; by subst).
  split_and!.
  - unfold click_add_time. rewrite Htss. simpl. eexists _, _. split; [done|].
    apply Hkeep.
  - unfold click_delete_times. rewrite Htss. simpl.
    case_bool_decide; [by eexists _, _|].
    rewrite delete_selected_unticked. simpl. eexists _, _. split; [done|].
    apply Hkeep.
  - unfold click_add_course. rewrite Htss. simpl.
    case_bool_decide; [by eexists _, _|].
    destruct (existsb _ _); [by eexists _, _|].
    eexists _, _. split; [done|]. apply Hkeep.
Qed.

Lemma forms_never_fail_witness :
  forms_present initial_session
  ∧ (REQUIRED = REQUIRED ∨ REQUIRED = ELECTIVE)
  ∧ ∃ st' log, click_add_time REQUIRED "Mon" 1 initial_session = Some (st', log)
               ∧ forms_present st'.
Proof.
  assert (forms_present initial_session) as H1.
  { split; vm_compute; eauto. }
  assert (REQUIRED = REQUIRED ∨ REQUIRED = ELECTIVE) as H2 by by left.
  exact (conj H1 (conj H2
    (proj1 (forms_never_fail REQUIRED initial_session "Mon" 1 (λ _, false)
              "" "" 0 0 "" "" false false H1 H2)))).
Defined.

(** X22. Adding a time and then deleting it again, by ticking the box of the
    last time only, restores the session. *)
Theorem add_then_delete_time
    (course_type day : string) (period : Z) (st st1 : session_state)
    (time_slots : list (string * Z)) (log : list Notice) :
  st_time_slots st !! course_type = Some time_slots →
  click_add_time course_type day period st = Some (st1, log) →
  click_delete_times course_type (λ idx, bool_decide (idx = length time_slots)) st1
  = Some (st, [TimesDeleted]).
Proof.
  intros Htss. unfold click_add_time. rewrite Htss. simpl. intros [= <- <-].
  unfold click_delete_times. simpl. rewrite lookup_insert_eq. simpl.
  rewrite bool_decide_eq_false_2 by by destruct time_slots.
  rewrite delete_selected_unticked. simpl.
  rewrite unticked_snoc, bool_decide_eq_true_2, app_nil_r by done.
  rewrite unticked_none.
  - rewrite insert_insert_eq, insert_id by done. by destruct st.
  - intros i Hi. apply bool_decide_eq_false_2. lia.
Qed.

Lemma add_then_delete_time_witness :
  st_time_slots initial_session !! REQUIRED = Some []
  ∧ ∃ st1 log, click_add_time REQUIRED "Mon" 1 initial_session = Some (st1, log)
     ∧ click_delete_times REQUIRED (λ idx, bool_decide (idx = 0%nat)) st1
       = Some (initial_session, [TimesDeleted]).
Proof.
  assert (st_time_slots initial_session !! REQUIRED = Some []) as H1
    by (vm_compute; reflexivity).
  destruct (click_add_time REQUIRED "Mon" 1 initial_session) as [[st1 log]|] eqn:H2;
    [|by vm_compute in H2].
  split; [done|]. exists st1, log. split; [done|].
  exact (add_then_delete_time REQUIRED "Mon" 1 initial_session st1 [] log H1 H2).
Defined.

(** ** The table of [display_schedule_grid] *)

Section frame.
Implicit Types (df : gmap (Z * string) string) (c : Course).

Lemma string_app_assoc (a b c : string) : (a +:+ b) +:+ c = a +:+ b +:+ c.
Proof.
  induction a as [|x a IH]; [done|].
  change (String x a +:+ b) with (String x (a +:+ b)).
  change (String x (a +:+ b) +:+ c) with (String x ((a +:+ b) +:+ c)).
  by rewrite IH.
Qed.

Lemma string_app_nil_inv (a b : string) : a +:+ b = "" → a = "" ∧ b = "".
Proof. destruct a; [done|]. intros [=]. Qed.

Lemma elem_of_periods (period : Z) : period ∈ periods ↔ 1 ≤ period ∧ period ≤ 10.
Proof.
  unfold periods. split.
  - intros Hp. repeat (apply elem_of_cons in Hp as [->|Hp]; [lia|]).
    by apply elem_of_nil in Hp.
  - intros Hp.
    assert (period = 1 ∨ period = 2 ∨ period = 3 ∨ period = 4 ∨ period = 5
            ∨ period = 6 ∨ period = 7 ∨ period = 8 ∨ period = 9 ∨ period = 10)
      as Hcases by lia.
    repeat (destruct Hcases as [->|Hcases]; [set_solver|]). subst. set_solver.
Qed.

Lemma empty_frame_lookup (period : Z) (day : string) :
  empty_frame !! (period, day)
  = if bool_decide (day ∈ days ∧ 1 ≤ period ∧ period ≤ 10) then Some "" else None.
Proof.
  unfold empty_frame.
  assert (∀ k v, (k, v) ∈ (period ← periods; day ← days; [((period, day), "")])
            ↔ v = "" ∧ k.2 ∈ days ∧ 1 ≤ k.1 ∧ k.1 ≤ 10) as Hin.
  { intros [p d] v. rewrite list_elem_of_bind. setoid_rewrite list_elem_of_bind.
    setoid_rewrite list_elem_of_singleton. setoid_rewrite elem_of_periods.
    simpl. naive_solver. }
  case_bool_decide as Hr.
  - destruct (list_to_map _ !! (period, day)) as [v|] eqn:Hv.
    + apply elem_of_list_to_map_2, Hin in Hv as [-> _]. done.
    + apply not_elem_of_list_to_map_2 in Hv. exfalso. apply Hv.
      apply list_elem_of_fmap. exists ((period, day), ""). split; [done|].
      apply Hin. done.
  - destruct (list_to_map _ !! (period, day)) as [v|] eqn:Hv; [|done].
    apply elem_of_list_to_map_2, Hin in Hv as [_ ?]. done.
Qed.

Lemma cell_text_snoc (labels : list string) (label : string) :
  cell_text (labels ++ [label])
  = if bool_decide (cell_text labels ≠ "")
    then cell_text labels +:+ ", " +:+ label else label.
Proof. unfold cell_text. by rewrite foldl_snoc. Qed.

Lemma fill_frame_entries df (t : list Course) :
  foldl (λ df c, foldl (λ df slot, fill_cell df c slot) df (time_slots c)) df t
  = foldl (λ df e, fill_cell df e.2 e.1) df (slot_entries t).
Proof.
  revert df. unfold slot_entries.
  induction t as [|c t IH]; intros df; csimpl; [done|].
  by rewrite foldl_app, IH, foldl_fmap.
Qed.

Lemma fill_cell_lookup df c (d : string) (p : Z) (period : Z) (day : string) :
  fill_cell df c (d, p) !! (period, day)
  = if bool_decide ((d, p) = (day, period) ∧ day ∈ days ∧ 1 ≤ period ∧ period ≤ 10)
    then Some (if bool_decide (df !!! (period, day) ≠ "")
               then df !!! (period, day) +:+ ", " +:+ course_label c
               else course_label c)
    else df !! (period, day).
Proof.
  unfold fill_cell.
  destruct (decide ((d, p) = (day, period))) as [[= -> ->]|Hne].
  - case_bool_decide as Hslot.
    + rewrite (bool_decide_eq_true_2 (_ = _ ∧ _)) by done.
      case_bool_decide; by rewrite lookup_insert_eq.
    + rewrite (bool_decide_eq_false_2 (_ = _ ∧ _)); [done|]. by intros [_ ?].
  - rewrite (bool_decide_eq_false_2 (_ = _ ∧ _)) by by intros [? _].
    case_bool_decide; [|done].
    case_bool_decide; rewrite lookup_insert_ne by congruence; done.
Qed.

Lemma filled_frame_lookup_from df (E : list (string * Z * Course))
    (period : Z) (day : string) :
  df !! (period, day)
    = (if bool_decide (day ∈ days ∧ 1 ≤ period ∧ period ≤ 10) then Some "" else None) →
  foldl (λ df e, fill_cell df e.2 e.1) df E !! (period, day)
  = if bool_decide (day ∈ days ∧ 1 ≤ period ∧ period ≤ 10)
    then Some (cell_text (course_label <$> values_of (day, period) E))
    else None.
Proof.
  intros Hdf. induction E as [|[[d p] c] E IH] using rev_ind.
  { cbn [foldl]. rewrite Hdf. by case_bool_decide. }
  rewrite foldl_snoc, values_of_snoc. cbn [fst snd].
  rewrite fill_cell_lookup.
  destruct (decide (day ∈ days ∧ 1 ≤ period ∧ period ≤ 10)) as [Hrange|Hrange].
  - rewrite (bool_decide_eq_true_2 (day ∈ days ∧ _)) in IH |- * by done.
    rewrite (lookup_total_correct _ _ _ IH).
    destruct (decide ((d, p) = (day, period))) as [[= -> ->]|Hne].
    + rewrite bool_decide_eq_true_2 by done.
      rewrite fmap_app. csimpl. by rewrite cell_text_snoc.
    + rewrite bool_decide_eq_false_2 by by intros [? _].
      by rewrite IH, app_nil_r.
  - rewrite (bool_decide_eq_false_2 (day ∈ days ∧ _)) in IH |- * by done.
    rewrite bool_decide_eq_false_2 by by intros [_ ?]. done.
Qed.

Lemma filled_frame_lookup (E : list (string * Z * Course)) (period : Z) (day : string) :
  foldl (λ df e, fill_cell df e.2 e.1) empty_frame E !! (period, day)
  = if bool_decide (day ∈ days ∧ 1 ≤ period ∧ period ≤ 10)
    then Some (cell_text (course_label <$> values_of (day, period) E))
    else None.
Proof. apply filled_frame_lookup_from, empty_frame_lookup. Qed.

Lemma course_label_nonempty c : name c ≠ "" → course_label c ≠ "".
Proof.
  unfold course_label. intros Hn. case_bool_decide; [|done].
  by intros [? _]%string_app_nil_inv.
Qed.

Lemma cell_text_concat (labels : list string) :
  Forall (λ label, label ≠ "") labels →
  cell_text labels = String.concat ", " labels.
Proof.
  assert (∀ l acc, acc ≠ "" → Forall (λ label, label ≠ "") l →
            foldl (λ cell label, if bool_decide (cell ≠ "")
                                 then cell +:+ ", " +:+ label else label) acc l
            = String.concat ", " (acc :: l)) as Hgen.
  { intros l. induction l as [|y l IH]; intros acc Hacc Hl; [done|].
    apply Forall_cons in Hl as [Hy Hl]. simpl foldl.
    rewrite bool_decide_eq_true_2 by done. rewrite IH; [|
      by intros [? _]%string_app_nil_inv|done].
    destruct l as [|z l]; simpl; [done|].
    by rewrite !string_app_assoc. }
  intros Hl. destruct labels as [|x l]; [done|].
  apply Forall_cons in Hl as [Hx Hl]. unfold cell_text. simpl foldl.
  by apply Hgen.
Qed.

Lemma course_label_dash c : course_label c = "-" ↔ name c = "-" ∧ teacher c = "".
Proof.
  unfold course_label. case_bool_decide as Ht.
  - split; [|by intros [_ ?]]. destruct (name c) as [|a n].
    + intros [=].
    + intros [= -> [_ [=]]%string_app_nil_inv].
  - split; [done|by intros [? _]].
Qed.

Lemma concat_dash (labels : list string) :
  Forall (λ label, label ≠ "") labels →
  String.concat ", " labels = "-" ↔ labels = ["-"].
Proof.
  intros Hl. split; [|by intros ->].
  destruct labels as [|x [|y l]]; [done|simpl; by intros ->|].
  apply Forall_cons in Hl as [Hx _].
  destruct x as [|a x]; [done|].
  intros [= -> [_ [=]]%string_app_nil_inv].
Qed.
End frame.

Lemma schedule_frame_lookup (combo : list Course) (period : Z) (day : string) :
  schedule_frame combo !! (period, day)
  = if bool_decide (day ∈ days ∧ 1 ≤ period ∧ period ≤ 10)
    then
      let text := cell_text (course_label <$> occupant_list (day, period) combo) in
      Some (if bool_decide (text = "") then "-" else text)
    else None.
Proof.
  unfold schedule_frame.
  rewrite lookup_fmap, fill_frame_entries, filled_frame_lookup.
  case_bool_decide; [|done]. cbn [fmap option_fmap option_map].
  by rewrite values_of_slot_entries.
Qed.

(** X23. The table of the grid has exactly the cells of Monday to Friday,
    periods 1 to 10: time slots outside are ignored. Every cell collects the
    labels of the sections that list its slot, in the order of the sections
    and once for every listing, and shows a dash when it collected nothing. *)
Theorem schedule_frame_cells (combo : list Course) (period : Z) (day : string) :
  schedule_frame combo !! (period, day)
  = if bool_decide (day ∈ days ∧ 1 ≤ period ∧ period ≤ 10)
    then
      let text := cell_text (course_label <$> occupant_list (day, period) combo) in
      Some (if bool_decide (text = "") then "-" else text)
    else None.
Proof. apply schedule_frame_lookup. Qed.

(** X24. When the sections have names, a cell within the table holds the
    labels of the sections that list its slot, separated by a comma and a
    space, a text that is not empty, and a dash when no section lists it: the
    same sections, in the same order, as the conflict evaluation counts for
    the slot. The cell shows a dash exactly when no section lists its slot or
    the slot is listed once, by a section with the name "-" and no teacher. *)
Theorem schedule_frame_labels (combo : list Course) (period : Z) (day : string) :
  (∀ c, c ∈ combo → name c ≠ "") →
  day ∈ days → 1 ≤ period ∧ period ≤ 10 →
  schedule_frame combo !! (period, day)
  = Some (if decide ((day, period) ∈ combo ≫= time_slots)
          then String.concat ", " (course_label <$> occupant_list (day, period) combo)
          else "-")
  ∧ length (occupant_list (day, period) combo) = occupants (day, period) combo
  ∧ ((day, period) ∈ combo ≫= time_slots →
       String.concat ", " (course_label <$> occupant_list (day, period) combo) ≠ "")
  ∧ (schedule_frame combo !! (period, day) = Some "-"
     ↔ (day, period) ∉ combo ≫= time_slots
       ∨ ∃ c, occupant_list (day, period) combo = [c]
              ∧ name c = "-" ∧ teacher c = "").
Proof.
  intros Hnames Hday Hperiod.
  assert (Forall (λ label, label ≠ "")
            (course_label <$> occupant_list (day, period) combo)) as Hlabels.
  { apply Forall_fmap, Forall_forall. intros c Hc. apply course_label_nonempty, Hnames.
    unfold occupant_list in Hc.
    apply list_elem_of_bind in Hc as (c' & Hc & Hc').
    by apply list_elem_of_fmap in Hc as (_ & -> & _). }
  assert ((day, period) ∈ combo ≫= time_slots
          ↔ occupant_list (day, period) combo ≠ []) as Hocc.
  { rewrite <-length_zero_iff_nil, length_occupant_list. split.
    - intros Hin. pose proof (occupants_pos (day, period) combo) as Hpos.
      unfold slot_keys in Hpos. rewrite elem_of_first_seen in Hpos.
      specialize (Hpos Hin). lia.
    - intros Hne. destruct (decide ((day, period) ∈ combo ≫= time_slots)); [done|].
      by rewrite occupants_zero in Hne. }
  assert ((day, period) ∈ combo ≫= time_slots →
          String.concat ", " (course_label <$> occupant_list (day, period) combo) ≠ "")
    as Hne.
  { intros Hin%Hocc.
    destruct (occupant_list (day, period) combo) as [|c l]; [done|].
    apply Forall_cons in Hlabels as [Hc Hl]. csimpl.
    destruct (course_label <$> l) as [|y l']; simpl; [done|].
    by intros [? _]%string_app_nil_inv. }
  assert (schedule_frame combo !! (period, day)
          = Some (if decide ((day, period) ∈ combo ≫= time_slots)
                  then String.concat ", "
                         (course_label <$> occupant_list (day, period) combo)
                  else "-")) as Hcell.
  { rewrite schedule_frame_lookup.
    rewrite bool_decide_eq_true_2 by done. cbv zeta.
    rewrite cell_text_concat by done.
    destruct (decide ((day, period) ∈ combo ≫= time_slots)) as [Hin|Hin].
    - by rewrite bool_decide_eq_false_2 by by apply Hne.
    - assert (occupant_list (day, period) combo = []) as ->; [|done].
      destruct (occupant_list (day, period) combo) eqn:Ho; [done|].
      exfalso. by apply Hin, Hocc. }
  split_and!; [done|apply length_occupant_list|done|].
  rewrite Hcell. clear Hcell.
  destruct (decide ((day, period) ∈ combo ≫= time_slots)) as [Hin|Hin];
    [|split; [by left|done]].
  split.
  - intros [= Hdash]. right. apply concat_dash in Hdash; [|done].
    destruct (occupant_list (day, period) combo) as [|c [|c' l]]; [done| |done].
    injection Hdash as Hc%course_label_dash. by exists c.
  - intros [?|(c & -> & Hc%course_label_dash)]; [done|]. csimpl. by rewrite Hc.
Qed.

Lemma schedule_frame_labels_witness :
  schedule_frame [cA; cB] !! (1, "Mon") = Some "A, B"
  ∧ length (occupant_list ("Mon", 1) [cA; cB]) = 2%nat.
Proof.
  assert (∀ c, c ∈ [cA; cB] → name c ≠ "") as Hnames.
  { intros c Hc. apply elem_of_cons in Hc as [->|Hc]; [done|].
    apply elem_of_cons in Hc as [->|Hc]; [done|]. by apply elem_of_nil in Hc. }
  assert ("Mon" ∈ days) as Hday by (unfold days; left).
  pose proof (schedule_frame_labels [cA; cB] 1 "Mon" Hnames Hday ltac:(lia))
    as (Hcell & Hlen & _).
  split; [exact Hcell|exact Hlen].
Defined.

(** ** The course file *)

Section course_file.
Implicit Types (c : Course) (item v : json) (st : session_state).

Lemma attempt_ap_Raised {A B} (f : attempt (A → B)) (x : attempt A) :
  f <*> x = Raised ↔ f = Raised ∨ x = Raised.
Proof. destruct f, x; simpl; naive_solver. Qed.

Lemma typed_Raised {A} (as_type : json → option A) (r : attempt json) :
  typed as_type r = Raised ↔ r = Raised.
Proof. destruct r as [| |v]; simpl; [done..|]. by destruct (as_type v). Qed.

Lemma collect_cons {A} (x : attempt A) xs :
  collect (x :: xs) = Value cons <*> x <*> collect xs.
Proof. done. Qed.

Lemma collect_Value {A} (l : list A) : collect (Value <$> l) = Value l.
Proof.
  unfold collect. induction l as [|a l IH]; [done|].
  cbn [fmap list_fmap foldr]. by rewrite IH.
Qed.

Lemma collect_Raised {A} (xs : list (attempt A)) : collect xs = Raised ↔ Raised ∈ xs.
Proof.
  induction xs as [|x xs IH]; [by rewrite elem_of_nil|].
  rewrite collect_cons, !attempt_ap_Raised, IH, elem_of_cons. naive_solver.
Qed.

Lemma py_tuple_Raised ts : py_tuple ts = Raised ↔ scalar ts.
Proof.
  destruct ts as [| | | | |items|]; simpl; try done.
  destruct items as [|[] [|[] [|]]]; done.
Qed.

Lemma tuples_encoded (l : list (string * Z)) :
  tuples (Value (JArray ((λ ts, JArray [JString ts.1; JInt ts.2]) <$> l))) = Value l.
Proof.
  cbn [tuples]. rewrite <-list_fmap_compose.
  etrans; [|apply collect_Value]. f_equal. apply list_fmap_ext. by intros _ [day period] _.
Qed.

Lemma load_item_asdict c : load_item (asdict c) = Value c.
Proof.
  destruct c as [n ty cid cr pr tss ms ex te no]. unfold load_item, asdict.
  cbn [name type class_id credits priority time_slots must_select
       temporarily_exclude teacher notes].
  assert (∀ key members, subscript (JObject members) key
            = match dict_get key members with Some v => Value v | None => Raised end)
    as Hsub by done.
  assert (∀ key members dflt, get (JObject members) key dflt
            = Value (default dflt (dict_get key members))) as Hget by done.
  rewrite !Hsub, !Hget. clear Hsub Hget.
  repeat match goal with
  | |- context [dict_get ?k ?d] =>
      let r := eval vm_compute in (dict_get k d) in
      change (dict_get k d) with r
  end.
  cbn [default from_option id]. by rewrite tuples_encoded.
Qed.

Lemma load_items_saved (courses : list Course) :
  load_items (save_courses_to_json courses) = Value courses.
Proof.
  unfold save_courses_to_json. cbn [load_items].
  rewrite <-list_fmap_compose.
  etrans; [|apply collect_Value]. f_equal. apply list_fmap_ext. intros _ c _. apply load_item_asdict.
Qed.

Lemma elem_of_mandatory_keys (key : string) :
  key ∈ mandatory_keys
  ↔ key = "name" ∨ key = "type" ∨ key = "class_id" ∨ key = "credits"
    ∨ key = "time_slots".
Proof. unfold mandatory_keys. rewrite !elem_of_cons, elem_of_nil. naive_solver. Qed.

Lemma tuples_Raised (r : attempt json) :
  tuples r = Raised
  ↔ r = Raised
    ∨ ∃ v, r = Value v
           ∧ (scalar v ∨ ∃ items ts, v = JArray items ∧ ts ∈ items ∧ scalar ts).
Proof.
  destruct r as [| |v]; [naive_solver..|].
  destruct v as [|b|n|f|s|items|members]; simpl.
  1-4: naive_solver.
  - destruct (decide (s = "")); naive_solver.
  - rewrite collect_Raised, list_elem_of_fmap. split.
    + intros (ts & Hts%eq_sym%py_tuple_Raised & Hin). right. eexists. split; [done|].
      right. by exists items, ts.
    + intros [|(v & [= <-] & [[]|(items' & ts & [= <-] & Hin & Hts)])]; [done|].
      exists ts. split; [|done]. symmetry. by apply py_tuple_Raised.
  - destruct (decide (members = [])); naive_solver.
Qed.

Lemma load_item_Raised item : load_item item = Raised ↔ broken item.
Proof.
  unfold load_item, broken. rewrite !attempt_ap_Raised, !typed_Raised, tuples_Raised.
  destruct item as [| | | | | |members].
  1-6: split; [intros _ members' [=]|intros _; cbn [subscript]; tauto].
  cbn [subscript get]. split.
  - intros H members' [= <-].
    destruct (dict_get "name" members) as [v1|] eqn:H1;
      [|left; exists "name"; split; [apply elem_of_mandatory_keys; tauto|done]].
    destruct (dict_get "type" members) as [v2|] eqn:H2;
      [|left; exists "type"; split; [apply elem_of_mandatory_keys; tauto|done]].
    destruct (dict_get "class_id" members) as [v3|] eqn:H3;
      [|left; exists "class_id"; split; [apply elem_of_mandatory_keys; tauto|done]].
    destruct (dict_get "credits" members) as [v4|] eqn:H4;
      [|left; exists "credits"; split; [apply elem_of_mandatory_keys; tauto|done]].
    destruct (dict_get "time_slots" members) as [v5|] eqn:H5;
      [|left; exists "time_slots"; split; [apply elem_of_mandatory_keys; tauto|done]].
    right. exists v5. split; [done|].
    repeat (destruct H as [H|H]; try discriminate H).
    by destruct H as (v & [= <-] & H).
  - intros H. destruct (H members eq_refl) as [(key & Hkey & Hnone)|(v & Hv & Hbad)].
    + apply elem_of_mandatory_keys in Hkey.
      destruct Hkey as [->|[->|[->|[->| ->]]]]; rewrite Hnone; tauto.
    + rewrite Hv. do 4 left. right. right. by exists v.
Qed.
End course_file.

(** X25. Loading the value that [save_courses_to_json] writes gives back the
    same courses, in their order and with all their fields, and reports
    nothing. *)
Theorem load_saved_courses (courses : list Course) :
  load_courses_from_json (Some (save_courses_to_json courses)) = Some (courses, []).
Proof.
  unfold load_courses_from_json. cbn [from_option].
  by rewrite load_items_saved.
Qed.

(** X26. When the session has courses, the save button offers a download,
    and uploading what it offers into any session puts the saved courses in
    place of that session's courses; the schedules and the times of the
    forms of that session stay. *)
Theorem save_then_upload (st st' : session_state) :
  st_courses st ≠ [] →
  ∃ json_data,
    click_save st = [DownloadOffered json_data; SaveReady]
    ∧ upload_courses (Some json_data) st'
      = Some ({| st_courses := st_courses st;
                 st_generated_schedules := st_generated_schedules st';
                 st_conflict_schedules := st_conflict_schedules st';
                 st_time_slots := st_time_slots st' |},
              [CoursesLoaded (length (st_courses st))]).
Proof.
  intros Hcourses. exists (save_courses_to_json (st_courses st)). split.
  - unfold click_save. by rewrite bool_decide_eq_false_2.
  - unfold upload_courses, load_courses_from_json. cbn [from_option].
    rewrite load_items_saved. cbn [mbind option_bind].
    by rewrite bool_decide_eq_false_2.
Qed.

Lemma save_then_upload_witness :
  ∃ json_data,
    click_save {| st_courses := pool_abc; st_generated_schedules := [];
                  st_conflict_schedules := [];
                  st_time_slots := st_time_slots initial_session |}
      = [DownloadOffered json_data; SaveReady]
    ∧ upload_courses (Some json_data) initial_session
      = Some ({| st_courses := pool_abc;
                 st_generated_schedules := [];
                 st_conflict_schedules := [];
                 st_time_slots := st_time_slots initial_session |},
              [CoursesLoaded 3]).
Proof.
  apply (save_then_upload
           {| st_courses := pool_abc; st_generated_schedules := [];
              st_conflict_schedules := [];
              st_time_slots := st_time_slots initial_session |}
           initial_session).
  discriminate.
Defined.

(** X27. A file with a list is rejected as a whole, with the error and no
    course loaded, exactly when one of its items is no dictionary, lacks one
    of the keys name, type, class_id, credits and time_slots, or has time
    slots that cannot be iterated. The other five keys may be missing, and
    no type of a value is checked. *)
Theorem load_fails_iff (items : list json) :
  load_courses_from_json (Some (JArray items)) = Some ([], [LoadFailed])
  ↔ ∃ item, item ∈ items ∧ broken item.
Proof.
  unfold load_courses_from_json. cbn [from_option load_items].
  assert (collect (load_item <$> items) = Raised ↔ ∃ item, item ∈ items ∧ broken item)
    as <-.
  { rewrite collect_Raised, list_elem_of_fmap. split.
    - intros (item & Hitem%eq_sym%load_item_Raised & Hin). by exists item.
    - intros (item & Hin & Hitem%load_item_Raised). by exists item. }
  destruct (collect (load_item <$> items)); split; done.
Qed.

(** X28. An upload never touches the stored schedules or the times of the
    forms, and never empties the course list: either the session stays as it
    is, when the file is rejected or holds no course, or the courses of the
    file take the place of the courses of the session, whatever these
    were. *)
Theorem upload_keeps_or_replaces (uploaded_file : option json)
    (st st' : session_state) (log : list FileNotice) :
  upload_courses uploaded_file st = Some (st', log) →
  st_generated_schedules st' = st_generated_schedules st
  ∧ st_conflict_schedules st' = st_conflict_schedules st
  ∧ st_time_slots st' = st_time_slots st
  ∧ ((st' = st ∧ (log = [] ∨ log = [LoadFailed]))
     ∨ (st_courses st' ≠ []
        ∧ log = [CoursesLoaded (length (st_courses st'))]
        ∧ load_courses_from_json uploaded_file = Some (st_courses st', []))).
Proof.
  unfold upload_courses.
  destruct (load_courses_from_json uploaded_file) as [[loaded_courses log']|] eqn:Hload;
    [|done].
  assert (log' = [] ∨ loaded_courses = [] ∧ log' = [LoadFailed]) as Hlog.
  { unfold load_courses_from_json in Hload.
    destruct (from_option load_items Raised uploaded_file); naive_solver. }
  cbn [mbind option_bind]. case_bool_decide as Hnil; intros [= <- <-].
  - split_and!; [done..|]. left. naive_solver.
  - split_and!; [done..|]. right. cbn [st_courses].
    destruct Hlog as [->|[? _]]; done.
Qed.

Lemma upload_keeps_or_replaces_witness :
  ∃ st' log,
    upload_courses (Some (JArray [asdict cA; JInt 1])) initial_session = Some (st', log)
    ∧ st_generated_schedules st' = st_generated_schedules initial_session
    ∧ st_conflict_schedules st' = st_conflict_schedules initial_session
    ∧ st_time_slots st' = st_time_slots initial_session.
Proof.
  exists initial_session, [LoadFailed].
  assert (upload_courses (Some (JArray [asdict cA; JInt 1])) initial_session
          = Some (initial_session, [LoadFailed])) as Hupload by reflexivity.
  split; [exact Hupload|].
  destruct (upload_keeps_or_replaces _ _ _ _ Hupload) as (Hg & Hc & Ht & _).
  split; [exact Hg|]. split; [exact Hc|exact Ht].
Defined.
